(** * An LRU cache with per-entry expiry: model of [backend/lru.go]

    The Go program keeps a [map[int]*list.Element] next to a
    [container/list] doubly linked list whose elements carry a
    [*CacheItem].  The map and the list share the elements by pointer, and
    [Set] updates an item in place through the pointer found in the map.
    The model keeps this sharing: an element is a handle into a store of
    items, the map sends keys to handles and the list is the sequence of
    handles from front (most recently used) to back.

    Every clock reading [time.Now()] is an explicit argument, and a call
    that would dereference a nil pointer yields [Panic]. *)

From stdpp Require Import gmap list strings.
From Stdlib Require Import ZArith Lia.

#[local] Set Warnings "-register-all".

(** ** Outcomes of a Go call: a result or a run-time panic *)

Inductive outcome (A : Type) : Type :=
  | Ok (a : A)
  | Panic.
Arguments Ok {A} a.
Arguments Panic {A}.

#[global] Instance outcome_ret : MRet outcome := λ A a, Ok a.
#[global] Instance outcome_bind : MBind outcome := λ A B f m,
  match m with
  | Ok a => f a
  | Panic => Panic
  end.

(** ** Time

    A [time.Time] is an instant counted in nanoseconds, taken as an
    unbounded integer; a [time.Duration] is a signed 64-bit count of
    nanoseconds.  [time.Duration(n) * time.Second] is a 64-bit
    multiplication and wraps around. *)

Definition Time := Z.
Definition Duration := Z.
Bind Scope Z_scope with Time Duration.

Definition int64 (z : Z) : Z := ((z + 2 ^ 63) `mod` 2 ^ 64 - 2 ^ 63)%Z.

Definition Second : Duration := 1000000000%Z.

(** [t.After(u)]: is [t] strictly later than [u]. *)
Definition After (t u : Time) : bool := (u <? t)%Z.

(** [t.Add(d)]. *)
Definition Add (t : Time) (d : Duration) : Time := (t + d)%Z.

(** ** Data (lru.go, lines 14-27) *)

(** A [*list.Element]: the identity of one list cell. *)
Definition Element := nat.

Record CacheItem : Type := mkCacheItem {
  key : Z;
  value : Z;
  expireAt : Time
}.

(** [capacity], [expireSec], [cache] and [lst] are the fields of the Go
    struct ([lst] is its field [list]).  [elems] is the memory the element
    pointers point into: the [CacheItem] behind each element ever pushed;
    [next] is the next unused handle.  An element taken out of the list
    keeps its cell, as a removed [list.Element] keeps its [Value]. *)
Record LRUCache : Type := mkLRUCache {
  capacity : Z;
  expireSec : Z;
  cache : gmap Z Element;
  lst : list Element;
  elems : gmap Element CacheItem;
  next : Element
}.

Definition set_cache (f : gmap Z Element → gmap Z Element) (lru : LRUCache) : LRUCache :=
  mkLRUCache (capacity lru) (expireSec lru) (f (cache lru)) (lst lru) (elems lru) (next lru).

Definition set_lst (f : list Element → list Element) (lru : LRUCache) : LRUCache :=
  mkLRUCache (capacity lru) (expireSec lru) (cache lru) (f (lst lru)) (elems lru) (next lru).

Definition set_elems (f : gmap Element CacheItem → gmap Element CacheItem) (lru : LRUCache) : LRUCache :=
  mkLRUCache (capacity lru) (expireSec lru) (cache lru) (lst lru) (f (elems lru)) (next lru).

(** ** The operations of [container/list] the cache uses *)

(** [l.Remove(e)]: takes [e] out if it is in [l], else does nothing. *)
Definition Remove (e : Element) (l : list Element) : list Element :=
  filter (λ x, x ≠ e) l.

(** [l.MoveToFront(e)]: does nothing when [e] is not in [l]. *)
Definition MoveToFront (e : Element) (l : list Element) : list Element :=
  if decide (e ∈ l) then e :: Remove e l else l.

(** [l.PushFront(v)] with the new cell [e]. *)
Definition PushFront (e : Element) (l : list Element) : list Element := e :: l.

(** [l.Back()]: the last element, nil for the empty list. *)
Definition Back (l : list Element) : option Element := last l.

(** The item behind an element, [elem.Value] asserted to a [CacheItem]
    pointer: reading through a nil element panics. *)
Definition item_of (lru : LRUCache) (e : Element) : outcome CacheItem :=
  match elems lru !! e with
  | Some it => Ok it
  | None => Panic
  end.

(** ** NewLRUCache (lines 30-42)

    The constructor stores its two arguments as they are.  The cleanup
    goroutine it starts is modelled by the sweep passes of [run] below. *)
Definition NewLRUCache (capacity expireSec : Z) : outcome LRUCache :=
  Ok (mkLRUCache capacity expireSec ∅ [] ∅ 0).

(** ** Get (lines 46-61) *)

Definition Get (k : Z) (now : Time) (lru : LRUCache) : outcome (Z * LRUCache) :=
  match cache lru !! k with
  | Some elem =>
      item ← item_of lru elem;
      if After now (expireAt item) then
        Ok ((-1)%Z, set_lst (Remove elem) (set_cache (delete k) lru))
      else
        Ok (value item, set_lst (MoveToFront elem) lru)
  | None => Ok ((-1)%Z, lru)
  end.

(** ** Set (lines 66-82) *)

(** [time.Duration(lru.expireSec) * time.Second]. *)
Definition ttl (lru : LRUCache) : Duration := int64 (expireSec lru * Second).

(** Lines 76-77: the key of the back element leaves the map, the back
    element leaves the list.  [lru.list.Back()] is nil on an empty list,
    and reading its [Value] panics. *)
Definition evict_back (lru : LRUCache) : outcome LRUCache :=
  match Back (lst lru) with
  | Some back =>
      item ← item_of lru back;
      Ok (set_lst (Remove back) (set_cache (delete (key item)) lru))
  | None => Panic
  end.

Definition SetKV (k v : Z) (now : Time) (lru : LRUCache) : outcome LRUCache :=
  match cache lru !! k with
  | Some elem =>
      item ← item_of lru elem;
      Ok (set_lst (MoveToFront elem)
            (set_elems (insert elem (mkCacheItem (key item) v (Add now (ttl lru)))) lru))
  | None =>
      lru1 ← (if bool_decide (capacity lru ≤ Z.of_nat (size (cache lru)))%Z
              then evict_back lru else Ok lru);
      let elem := next lru1 in
      Ok (mkLRUCache (capacity lru1) (expireSec lru1)
            (<[k := elem]> (cache lru1))
            (PushFront elem (lst lru1))
            (<[elem := mkCacheItem k v (Add now (ttl lru1))]> (elems lru1))
            (S elem))
  end.

(** ** cleanup (lines 85-97)

    One pass of the outer loop, after the sleep: the body between Lock and
    Unlock.  Go ranges over the map in an unspecified order and reads the
    clock anew for each entry, so a pass is driven by the list of its
    visits, each a key with the clock reading taken there.  A key deleted
    before it is reached is not produced by the range. *)
Definition cleanup_visit (lru : LRUCache) (visit : Z * Time) : outcome LRUCache :=
  match cache lru !! visit.1 with
  | Some elem =>
      item ← item_of lru elem;
      if After visit.2 (expireAt item) then
        Ok (set_lst (Remove elem) (set_cache (delete visit.1) lru))
      else Ok lru
  | None => Ok lru
  end.

Fixpoint cleanup_pass (visits : list (Z * Time)) (lru : LRUCache) : outcome LRUCache :=
  match visits with
  | [] => Ok lru
  | visit :: rest => lru1 ← cleanup_visit lru visit; cleanup_pass rest lru1
  end.

(** The visits a range over [lru.cache] can make: every key of the map,
    once. *)
Definition range_of (lru : LRUCache) (visits : list (Z * Time)) : Prop :=
  NoDup visits.*1 ∧ ∀ k, k ∈ visits.*1 ↔ is_Some (cache lru !! k).

(** ** Histories: the operations that take the lock, in the order they
    take it

    Each operation holds the mutex from its first step to its last, so a
    run of the program is a sequence of whole operations.  A sweep of a
    history may make any list of visits; those of a real range over the
    map, described by [range_of], are among them. *)

Inductive Op : Type :=
  | OpGet (k : Z) (now : Time)
  | OpSet (k v : Z) (now : Time)
  | OpSweep (visits : list (Z * Time)).

Definition step (lru : LRUCache) (op : Op) : outcome LRUCache :=
  match op with
  | OpGet k now => r ← Get k now lru; Ok r.2
  | OpSet k v now => SetKV k v now lru
  | OpSweep visits => cleanup_pass visits lru
  end.

Fixpoint run (ops : list Op) (lru : LRUCache) : outcome LRUCache :=
  match ops with
  | [] => Ok lru
  | op :: rest => lru1 ← step lru op; run rest lru1
  end.

(** The cache built by [NewLRUCache] after the history [ops]. *)
Definition history (capacity expireSec : Z) (ops : list Op) : outcome LRUCache :=
  lru ← NewLRUCache capacity expireSec; run ops lru.

(** ** The transport: SetHandler (lines 126-143)

    The body of a request is the first JSON value read from it, [None]
    when the bytes are not JSON.  [encoding/json] fills a struct through
    its exported fields only: a field whose name does not start with an
    upper-case letter is never a target of a member of the object. *)

Inductive JSON : Type :=
  | JNull
  | JBool (b : bool)
  | JNumber (n : Z)
  | JString (s : string)
  | JArray (items : list JSON)
  | JObject (members : list (string * JSON)).

Inductive FieldType : Type :=
  | TInt (store : Z → CacheItem → CacheItem)
  | TTime (store : Time → CacheItem → CacheItem).

Record StructField : Type := mkStructField {
  Name : string;
  Kind : FieldType
}.

(** The fields of [CacheItem], as declared in lines 23-27. *)
Definition CacheItem_fields : list StructField :=
  [ mkStructField "key" (TInt (λ n it, mkCacheItem n (value it) (expireAt it)));
    mkStructField "value" (TInt (λ n it, mkCacheItem (key it) n (expireAt it)));
    mkStructField "expireAt" (TTime (λ t it, mkCacheItem (key it) (value it) t)) ].

Definition is_upper (c : Ascii.ascii) : bool :=
  (65 <=? Ascii.nat_of_ascii c) && (Ascii.nat_of_ascii c <=? 90).

Definition to_lower (c : Ascii.ascii) : Ascii.ascii :=
  if is_upper c then Ascii.ascii_of_nat (Ascii.nat_of_ascii c + 32) else c.

Fixpoint fold_name (s : string) : string :=
  match s with
  | EmptyString => EmptyString
  | String c rest => String (to_lower c) (fold_name rest)
  end.

(** [reflect.StructField.IsExported]. *)
Definition IsExported (name : string) : bool :=
  match name with
  | String c _ => is_upper c
  | EmptyString => false
  end.

(** The fields the decoder may write. *)
Definition settable (fields : list StructField) : list StructField :=
  filter (λ f, IsExported (Name f) = true) fields.

(** The target of an object member: the field of that exact name, else
    the first one equal to it up to case. *)
Definition find_field (fields : list StructField) (name : string) : option StructField :=
  match list_find (λ f, Name f = name) fields with
  | Some p => Some p.2
  | None => snd <$> list_find (λ f, fold_name (Name f) = fold_name name) fields
  end.

Definition fits_int (n : Z) : bool := ((- 2 ^ 63 <=? n) && (n <? 2 ^ 63))%Z.

Section Decode.

(** [time.Time]'s own [UnmarshalJSON], which reads an RFC 3339 string. *)
Variable parseTime : string → option Time.

(** Storing one JSON value in one field; [None] is a type error. *)
Definition assign (f : StructField) (v : JSON) (item : CacheItem) : option CacheItem :=
  match v, Kind f with
  | JNull, _ => Some item
  | JNumber n, TInt store => if fits_int n then Some (store n item) else None
  | JString s, TTime store => (λ t, store t item) <$> parseTime s
  | _, _ => None
  end.

Fixpoint decode_members (fields : list StructField) (members : list (string * JSON))
    (item : CacheItem) : option CacheItem :=
  match members with
  | [] => Some item
  | member :: rest =>
      match find_field fields member.1 with
      | Some f => item1 ← assign f member.2 item; decode_members fields rest item1
      | None => decode_members fields rest item
      end
  end.

(** [json.NewDecoder(r.Body).Decode(&item)]; [None] is a non-nil [err]. *)
Definition Decode (body : option JSON) (item : CacheItem) : option CacheItem :=
  match body with
  | Some (JObject members) => decode_members (settable CacheItem_fields) members item
  | Some JNull => Some item
  | Some _ => None
  | None => None
  end.

Record Request : Type := mkRequest {
  Method : string;
  Body : option JSON
}.

Definition MethodPost : string := "POST".
Definition StatusCreated : Z := 201.
Definition StatusBadRequest : Z := 400.
Definition StatusMethodNotAllowed : Z := 405.

(** [var item CacheItem]: the zero value. *)
Definition zero_item : CacheItem := mkCacheItem 0 0 0.

(** The handler, as the status it writes and the cache it leaves. *)
Definition SetHandler (now : Time) (r : Request) (lru : LRUCache) : outcome (Z * LRUCache) :=
  if decide (Method r ≠ MethodPost) then Ok (StatusMethodNotAllowed, lru)
  else
    match Decode (Body r) zero_item with
    | None => Ok (StatusBadRequest, lru)
    | Some item =>
        lru1 ← SetKV (key item) (value item) now lru;
        Ok (StatusCreated, lru1)
    end.

End Decode.

(** ** The invariants of section 3 of the specification *)

(** Every key of the index leads to an element of the order that holds an
    item with that key. *)
Definition paired (lru : LRUCache) : Prop :=
  ∀ k e, cache lru !! k = Some e →
    e ∈ lst lru ∧ ∃ it, elems lru !! e = Some it ∧ key it = k.

(** Every element of the order is the one the index has for its key. *)
Definition indexed (lru : LRUCache) : Prop :=
  ∀ e, e ∈ lst lru →
    ∃ it, elems lru !! e = Some it ∧ cache lru !! key it = Some e.

Record lru_inv (lru : LRUCache) : Prop := mk_lru_inv {
  inv_nodup : NoDup (lst lru);
  inv_paired : paired lru;
  inv_indexed : indexed lru;
  inv_fresh : ∀ e, e ∈ lst lru → e < next lru;
  inv_size : size (cache lru) = length (lst lru)
}.

(** The capacity bound. *)
Definition bounded (lru : LRUCache) : Prop :=
  (Z.of_nat (size (cache lru)) ≤ capacity lru)%Z.

(** What every operation keeps from the state [lru] it starts in. *)
Definition keeps (lru lru1 : LRUCache) : Prop :=
  lru_inv lru1 ∧ capacity lru1 = capacity lru ∧ expireSec lru1 = expireSec lru ∧
  (bounded lru → bounded lru1).

(** ** Sample states

    [one_entry] is the cache after [Set(1, 10)] at time 0 with a TTL of
    100 seconds, [minus_one_entry] the same with the value -1, and
    [full_cache] a cache of capacity 2 after [Set(1, 10)] at time 0 and
    [Set(2, 20)] at time 1. *)

Definition one_entry : LRUCache :=
  mkLRUCache 2 100 (<[1%Z := 0]> ∅) [0]
    (<[0 := mkCacheItem 1 10 100000000000]> ∅) 1.

Definition minus_one_entry : LRUCache :=
  mkLRUCache 2 100 (<[1%Z := 0]> ∅) [0]
    (<[0 := mkCacheItem 1 (-1) 100000000000]> ∅) 1.

Definition full_cache : LRUCache :=
  mkLRUCache 2 100 (<[2%Z := 1]> (<[1%Z := 0]> ∅)) [1; 0]
    (<[1 := mkCacheItem 2 20 100000000001]>
       (<[0 := mkCacheItem 1 10 100000000000]> ∅)) 2.

(** The request [POST /set] with the body of key 5 and value 7. *)
Definition post_5_7 : Request :=
  mkRequest "POST" (Some (JObject [("key", JNumber 5); ("value", JNumber 7)])).

(** ** The order as the program's user sees it

    The items of the cache from the most to the least recently used: the
    item behind each element of the list, front to back. *)
Definition items (lru : LRUCache) : list CacheItem :=
  omap (λ e, elems lru !! e) (lst lru).

(** The item [Set(k, v)] writes at the clock reading [now]. *)
Definition new_item (lru : LRUCache) (k v : Z) (now : Time) : CacheItem :=
  mkCacheItem k v (Add now (ttl lru)).

Definition is_OpSet (op : Op) : bool :=
  match op with
  | OpSet _ _ _ => true
  | _ => false
  end.

(** ** The transport: GetHandler (lines 100-123) *)

(** [strconv.Atoi]: an optional sign, then one or more decimal digits,
    and a value that fits the 64-bit [int]; [None] is a non-nil [err]. *)
Definition digit_of (c : Ascii.ascii) : option Z :=
  if (48 <=? Ascii.nat_of_ascii c) && (Ascii.nat_of_ascii c <=? 57)
  then Some (Z.of_nat (Ascii.nat_of_ascii c - 48))
  else None.

Fixpoint digits (s : string) (acc : Z) : option Z :=
  match s with
  | EmptyString => Some acc
  | String c rest => d ← digit_of c; digits rest (acc * 10 + d)%Z
  end.

Definition in_range (n : Z) : option Z :=
  if fits_int n then Some n else None.

(** The characters [-] and [+]. *)
Definition minus_sign : Ascii.ascii := Ascii.ascii_of_nat 45.
Definition plus_sign : Ascii.ascii := Ascii.ascii_of_nat 43.

Definition Atoi (s : string) : option Z :=
  match s with
  | EmptyString => None
  | String c rest =>
      if Ascii.eqb c minus_sign then
        match rest with
        | EmptyString => None
        | _ => n ← digits rest 0; in_range (- n)
        end
      else if Ascii.eqb c plus_sign then
        match rest with
        | EmptyString => None
        | _ => n ← digits rest 0; in_range n
        end
      else n ← digits s 0; in_range n
  end.

(** What the handler reads of a request: the method and the values of
    the query parameter [key], [None] when the parameter is missing
    ([r.URL.Query()] indexed by the name, and its [ok]). *)
Record QueryRequest : Type := mkQueryRequest {
  QMethod : string;
  QKey : option (list string)
}.

(** What the handler writes: the status and the JSON value encoded into
    the body, if any.  A handler that writes a body without a call of
    [WriteHeader] answers 200. *)
Record Response : Type := mkResponse {
  Status : Z;
  Payload : option JSON
}.

Definition MethodGet : string := "GET".
Definition StatusOK : Z := 200.

(** The map with the one member [value] that line 120 builds. *)
Definition value_response (v : Z) : Response :=
  mkResponse StatusOK (Some (JObject [("value", JNumber v)])).

(** [keys[0]] on an empty slice is an index out of range. *)
Definition GetHandler (now : Time) (r : QueryRequest) (lru : LRUCache)
    : outcome (Response * LRUCache) :=
  if decide (QMethod r ≠ MethodGet) then Ok (mkResponse StatusMethodNotAllowed None, lru)
  else
    match QKey r with
    | None => Ok (mkResponse StatusBadRequest None, lru)
    | Some [] => Panic
    | Some (first :: _) =>
        if (String.length first <? 1)%nat then Ok (mkResponse StatusBadRequest None, lru)
        else
          match Atoi first with
          | None => Ok (mkResponse StatusBadRequest None, lru)
          | Some k => res ← Get k now lru; Ok (value_response res.1, res.2)
          end
    end.

(** ** main (lines 145-153): the cache the server works on *)
Definition main_cache : outcome LRUCache := NewLRUCache 1024 50000.

(** The history that sets the keys of [kvs] in order, each entry of
    [kvs] a key, a value and the clock reading of its Set. *)
Definition sets (kvs : list (Z * Z * Time)) : list Op :=
  (λ x, OpSet x.1.1 x.1.2 x.2) <$> kvs.

(** The item a Set of the entry [x] writes under the setting [expireSec0]. *)
Definition item_for (expireSec0 : Z) (x : Z * Z * Time) : CacheItem :=
  mkCacheItem x.1.1 x.1.2 (Add x.2 (int64 (expireSec0 * Second))).

(** The bodies [Decode] takes without an error: a JSON object or [null]. *)
Definition accepted_body (body : option JSON) : bool :=
  match body with
  | Some (JObject _) | Some JNull => true
  | _ => false
  end.

(** The cache in its first state: the record [NewLRUCache] builds. *)
Definition empty_cache (capacity0 expireSec0 : Z) : LRUCache :=
  mkLRUCache capacity0 expireSec0 ∅ [] ∅ 0.

(** * Properties *)

Example scenario :
  history 2 100 [OpSet 1 10 0; OpSet 2 20 1; OpGet 1 2; OpSet 3 30 3] =
  Ok (mkLRUCache 2 100 (<[3%Z := 2]> (<[1%Z := 0]> ∅)) [2; 0]
        (<[2 := mkCacheItem 3 30 100000000003]>
           (<[1 := mkCacheItem 2 20 100000000001]>
              (<[0 := mkCacheItem 1 10 100000000000]> ∅))) 3).
Proof. vm_compute. reflexivity. Qed.

(** ** The list operations *)

Lemma elem_of_Remove e x l : x ∈ Remove e l ↔ x ∈ l ∧ x ≠ e.
Proof. unfold Remove. rewrite list_elem_of_filter. tauto. Qed.

Lemma NoDup_Remove e l : NoDup l → NoDup (Remove e l).
Proof. apply NoDup_filter. Qed.

Lemma Remove_absent e l : e ∉ l → Remove e l = l.
Proof.
  unfold Remove. induction l as [|x l IH]; intros Hnot; [done|].
  apply not_elem_of_cons in Hnot as [Hne Hnot].
  rewrite filter_cons_True by congruence. by rewrite IH.
Qed.

Lemma length_Remove e l :
  NoDup l → e ∈ l → S (length (Remove e l)) = length l.
Proof.
  unfold Remove. induction l as [|x l IH]; intros Hnd Hin.
  - by apply elem_of_nil in Hin.
  - apply NoDup_cons in Hnd as [Hx Hnd].
    destruct (decide (x = e)) as [->|Hne].
    + rewrite filter_cons_False by (intros ?; congruence).
      fold (Remove e l). by rewrite Remove_absent.
    + rewrite filter_cons_True by done. simpl. f_equal.
      apply IH; [done|]. apply elem_of_cons in Hin as [?|?]; [congruence|done].
Qed.

Lemma elem_of_MoveToFront e x l : x ∈ MoveToFront e l ↔ x ∈ l.
Proof.
  unfold MoveToFront. destruct (decide (e ∈ l)) as [Hin|]; [|done].
  rewrite elem_of_cons, elem_of_Remove. split.
  - by intros [->|[? _]].
  - intros Hx. destruct (decide (x = e)); [by left|by right].
Qed.

Lemma NoDup_MoveToFront e l : NoDup l → NoDup (MoveToFront e l).
Proof.
  intros Hnd. unfold MoveToFront. destruct (decide (e ∈ l)); [|done].
  apply NoDup_cons. split; [|by apply NoDup_Remove].
  rewrite elem_of_Remove. intros [_ Hne]. by apply Hne.
Qed.

Lemma length_MoveToFront e l : NoDup l → length (MoveToFront e l) = length l.
Proof.
  intros Hnd. unfold MoveToFront. destruct (decide (e ∈ l)); [|done].
  simpl. by apply length_Remove.
Qed.

Lemma Back_elem_of l b : Back l = Some b → b ∈ l.
Proof. apply last_Some_elem_of. Qed.

Lemma Back_nonempty l : l ≠ [] → is_Some (Back l).
Proof. apply last_is_Some. Qed.

(** ** The invariant is kept by each change of state the code makes *)

Ltac split_inv := split; unfold paired, indexed; simpl.

Lemma lru_inv_new capacity expireSec :
  lru_inv (mkLRUCache capacity expireSec ∅ [] ∅ 0).
Proof.
  split_inv.
  - constructor.
  - intros k e Hk. by rewrite lookup_empty in Hk.
  - intros e He. by apply elem_of_nil in He.
  - intros e He. by apply elem_of_nil in He.
  - by rewrite map_size_empty.
Qed.

(** Deleting a key from the map and its element from the list. *)
Lemma lru_inv_remove lru k e :
  lru_inv lru → cache lru !! k = Some e →
  lru_inv (set_lst (Remove e) (set_cache (delete k) lru)).
Proof.
  intros [Hnd Hp Hi Hf Hs] Hk.
  destruct (Hp k e Hk) as (Hin & it & Hit & Hkey).
  split_inv.
  - by apply NoDup_Remove.
  - intros k' e' Hk'. apply lookup_delete_Some in Hk' as [Hne Hk'].
    destruct (Hp k' e' Hk') as (Hin' & it' & Hit' & Hkey').
    split; [|by exists it'].
    apply elem_of_Remove. split; [done|].
    intros ->. congruence.
  - intros e' He'. apply elem_of_Remove in He' as [He' Hne].
    destruct (Hi e' He') as (it' & Hit' & Hc').
    exists it'. split; [done|].
    rewrite lookup_delete_ne; [done|]. intros Heq. rewrite <- Heq in Hc'. congruence.
  - intros e' He'. apply elem_of_Remove in He' as [He' _]. by apply Hf.
  - rewrite map_size_delete_Some by eauto.
    pose proof (length_Remove e (lst lru) Hnd Hin). lia.
Qed.

(** Moving an element to the front of the list. *)
Lemma lru_inv_touch lru e :
  lru_inv lru → lru_inv (set_lst (MoveToFront e) lru).
Proof.
  intros [Hnd Hp Hi Hf Hs]. split_inv.
  - by apply NoDup_MoveToFront.
  - intros k' e' Hk'. rewrite elem_of_MoveToFront. by apply Hp.
  - intros e'. rewrite elem_of_MoveToFront. by apply Hi.
  - intros e'. rewrite elem_of_MoveToFront. by apply Hf.
  - by rewrite length_MoveToFront.
Qed.

(** Writing a value and a deadline into an item, its key kept. *)
Lemma lru_inv_update lru e it v t :
  lru_inv lru → elems lru !! e = Some it →
  lru_inv (set_elems (insert e (mkCacheItem (key it) v t)) lru).
Proof.
  intros [Hnd Hp Hi Hf Hs] Hit. split_inv; try done.
  - intros k' e' Hk'. destruct (Hp k' e' Hk') as (Hin' & it' & Hit' & Hkey').
    split; [done|]. destruct (decide (e = e')) as [<-|Hne].
    + rewrite lookup_insert_eq. eexists. split; [done|]. simpl. congruence.
    + rewrite lookup_insert_ne by done. by exists it'.
  - intros e' He'. destruct (Hi e' He') as (it' & Hit' & Hc').
    destruct (decide (e = e')) as [<-|Hne].
    + rewrite lookup_insert_eq. eexists. split; [done|]. simpl. congruence.
    + rewrite lookup_insert_ne by done. by exists it'.
Qed.

(** Pushing a new element for a key the map does not have. *)
Lemma lru_inv_push lru k v t :
  lru_inv lru → cache lru !! k = None →
  lru_inv (mkLRUCache (capacity lru) (expireSec lru)
             (<[k := next lru]> (cache lru))
             (PushFront (next lru) (lst lru))
             (<[next lru := mkCacheItem k v t]> (elems lru))
             (S (next lru))).
Proof.
  intros [Hnd Hp Hi Hf Hs] Hk.
  assert (Hnew : next lru ∉ lst lru) by (intros Hin; apply Hf in Hin; lia).
  unfold PushFront. split_inv.
  - by apply NoDup_cons.
  - intros k' e' Hk'. apply lookup_insert_Some in Hk' as [[<- <-]|[Hne Hk']].
    + split; [by left|]. rewrite lookup_insert_eq. by eexists.
    + destruct (Hp k' e' Hk') as (Hin' & it' & Hit' & Hkey').
      split; [by right|]. exists it'. split; [|done].
      rewrite lookup_insert_ne; [done|]. by intros <-.
  - intros e' He'. apply elem_of_cons in He' as [->|He'].
    + rewrite lookup_insert_eq. eexists. split; [done|]. simpl.
      by rewrite lookup_insert_eq.
    + destruct (Hi e' He') as (it' & Hit' & Hc').
      exists it'. rewrite lookup_insert_ne by (by intros <-).
      split; [done|]. rewrite lookup_insert_ne; [done|]. intros Heq. rewrite <- Heq in Hc'. congruence.
  - intros e' He'. apply elem_of_cons in He' as [->|He']; [lia|].
    apply Hf in He'. lia.
  - rewrite map_size_insert_None by done. by rewrite Hs.
Qed.

(** ** Each operation keeps the invariant and the bound *)

Lemma keeps_refl lru : lru_inv lru → keeps lru lru.
Proof. by intros Hinv. Qed.

Lemma keeps_trans lru lru1 lru2 : keeps lru lru1 → keeps lru1 lru2 → keeps lru lru2.
Proof.
  intros (_ & Hc1 & He1 & Hb1) (Hinv2 & Hc2 & He2 & Hb2).
  split; [done|]. split; [congruence|]. split; [congruence|]. auto.
Qed.

Lemma item_of_paired lru k e :
  paired lru → cache lru !! k = Some e →
  ∃ it, item_of lru e = Ok it ∧ elems lru !! e = Some it ∧ key it = k.
Proof.
  intros Hp Hk. destruct (Hp k e Hk) as (_ & it & Hit & Hkey).
  exists it. unfold item_of. by rewrite Hit.
Qed.

Lemma keeps_remove lru k e :
  lru_inv lru → cache lru !! k = Some e →
  keeps lru (set_lst (Remove e) (set_cache (delete k) lru)).
Proof.
  intros Hinv Hk. split; [by apply lru_inv_remove|]. do 2 (split; [done|]).
  unfold bounded. simpl. rewrite map_size_delete, Hk. simpl. lia.
Qed.

Lemma Get_spec k now lru :
  lru_inv lru → ∃ r, Get k now lru = Ok r ∧ keeps lru r.2.
Proof.
  intros Hinv. unfold Get. destruct (cache lru !! k) as [e|] eqn:Hk.
  - destruct (item_of_paired lru k e (inv_paired _ Hinv) Hk) as (it & -> & _ & _).
    simpl. destruct (After now (expireAt it)); eexists; (split; [done|]); simpl.
    + by apply keeps_remove.
    + split; [by apply lru_inv_touch|done].
  - eexists. split; [done|]. by apply keeps_refl.
Qed.

Lemma cleanup_visit_spec lru visit :
  lru_inv lru → ∃ lru1, cleanup_visit lru visit = Ok lru1 ∧ keeps lru lru1.
Proof.
  intros Hinv. unfold cleanup_visit.
  destruct (cache lru !! visit.1) as [e|] eqn:Hk;
    [|eexists; split; [done|by apply keeps_refl]].
  destruct (item_of_paired lru _ e (inv_paired _ Hinv) Hk) as (it & -> & _ & _).
  simpl. destruct (After visit.2 (expireAt it)); eexists; (split; [done|]).
  - by apply keeps_remove.
  - by apply keeps_refl.
Qed.

Lemma cleanup_pass_spec visits lru :
  lru_inv lru → ∃ lru1, cleanup_pass visits lru = Ok lru1 ∧ keeps lru lru1.
Proof.
  revert lru. induction visits as [|visit rest IH]; intros lru Hinv; simpl.
  - eexists. split; [done|by apply keeps_refl].
  - destruct (cleanup_visit_spec lru visit Hinv) as (lru1 & -> & Hk1).
    simpl. destruct (IH lru1 (proj1 Hk1)) as (lru2 & -> & Hk2).
    eexists. split; [done|]. by eapply keeps_trans.
Qed.

(** The eviction of lines 75-78, on a list that has a back element. *)
Lemma evict_back_spec lru :
  lru_inv lru → lst lru ≠ [] →
  ∃ back it, Back (lst lru) = Some back ∧ elems lru !! back = Some it ∧
             cache lru !! key it = Some back ∧
             evict_back lru =
               Ok (set_lst (Remove back) (set_cache (delete (key it)) lru)).
Proof.
  intros Hinv Hne. destruct (Back_nonempty _ Hne) as [back Hback].
  destruct (inv_indexed _ Hinv back (Back_elem_of _ _ Hback)) as (it & Hit & Hc).
  exists back, it. unfold evict_back, item_of. by rewrite Hback, Hit.
Qed.

Lemma evict_back_Ok lru lru1 :
  evict_back lru = Ok lru1 → lst lru ≠ [].
Proof.
  unfold evict_back, Back. intros Hev Hnil. by rewrite Hnil in Hev.
Qed.

Lemma SetKV_inv k v now lru lru1 :
  lru_inv lru → SetKV k v now lru = Ok lru1 → keeps lru lru1.
Proof.
  intros Hinv. unfold SetKV. destruct (cache lru !! k) as [e|] eqn:Hk.
  - destruct (item_of_paired lru k e (inv_paired _ Hinv) Hk) as (it & -> & Hit & _).
    simpl. intros [= <-]. split; [|done].
    apply lru_inv_touch. by apply lru_inv_update.
  - case_bool_decide as Hfull.
    + destruct (evict_back lru) as [lru'|] eqn:Hev; [|done].
      destruct (evict_back_spec lru Hinv (evict_back_Ok _ _ Hev))
        as (back & it & Hback & Hit & Hc & Hev').
      rewrite Hev' in Hev. injection Hev as <-. simpl. intros [= <-].
      assert (Hkeep := keeps_remove lru (key it) back Hinv Hc).
      destruct Hkeep as (Hinv' & _ & _ & _).
      assert (Hk' : cache (set_lst (Remove back) (set_cache (delete (key it)) lru)) !! k = None).
      { simpl. apply lookup_delete_None. by right. }
      split; [exact (lru_inv_push _ k v _ Hinv' Hk')|]. do 2 (split; [done|]).
      unfold bounded. simpl. intros Hb.
      rewrite map_size_insert_None by (apply lookup_delete_None; by right).
      rewrite map_size_delete, Hc. simpl.
      assert (size (cache lru) ≠ 0).
      { rewrite (inv_size _ Hinv). destruct (lst lru); [|done].
        by apply evict_back_Ok in Hev'. }
      lia.
    + simpl. intros [= <-].
      split; [exact (lru_inv_push _ k v _ Hinv Hk)|]. do 2 (split; [done|]).
      unfold bounded. simpl. intros _. rewrite map_size_insert_None by done. lia.
Qed.

(** With a positive capacity, Set returns. *)
Lemma SetKV_total k v now lru :
  lru_inv lru → (0 < capacity lru)%Z → ∃ lru1, SetKV k v now lru = Ok lru1.
Proof.
  intros Hinv Hcap. unfold SetKV. destruct (cache lru !! k) as [e|] eqn:Hk.
  - destruct (item_of_paired lru k e (inv_paired _ Hinv) Hk) as (it & -> & _ & _).
    by eexists.
  - case_bool_decide as Hfull; [|by eexists].
    assert (Hne : lst lru ≠ []).
    { intros Hnil. pose proof (inv_size _ Hinv) as Hs. rewrite Hnil in Hs.
      simpl in Hs. lia. }
    destruct (evict_back_spec lru Hinv Hne) as (back & it & _ & _ & _ & ->).
    by eexists.
Qed.

Lemma step_inv lru op lru1 :
  lru_inv lru → step lru op = Ok lru1 → keeps lru lru1.
Proof.
  intros Hinv. destruct op as [k now|k v now|visits]; simpl.
  - destruct (Get_spec k now lru Hinv) as (r & -> & Hkeep). simpl. by intros [= <-].
  - by apply SetKV_inv.
  - destruct (cleanup_pass_spec visits lru Hinv) as (lru2 & -> & Hkeep).
    by intros [= <-].
Qed.

Lemma step_total lru op :
  lru_inv lru → (0 < capacity lru)%Z → ∃ lru1, step lru op = Ok lru1.
Proof.
  intros Hinv Hcap. destruct op as [k now|k v now|visits]; simpl.
  - destruct (Get_spec k now lru Hinv) as (r & -> & _). by eexists.
  - by apply SetKV_total.
  - destruct (cleanup_pass_spec visits lru Hinv) as (lru2 & -> & _). by eexists.
Qed.

Lemma run_inv ops lru lru1 :
  lru_inv lru → run ops lru = Ok lru1 → keeps lru lru1.
Proof.
  revert lru. induction ops as [|op rest IH]; intros lru Hinv; simpl.
  - intros [= <-]. by apply keeps_refl.
  - destruct (step lru op) as [lru'|] eqn:Hstep; [|done]. simpl. intros Hrun.
    pose proof (step_inv _ _ _ Hinv Hstep) as Hk1.
    eapply keeps_trans; [done|]. apply IH; [apply Hk1|done].
Qed.

Lemma run_total ops lru :
  lru_inv lru → (0 < capacity lru)%Z → ∃ lru1, run ops lru = Ok lru1.
Proof.
  revert lru. induction ops as [|op rest IH]; intros lru Hinv Hcap; simpl.
  - by eexists.
  - destruct (step_total lru op Hinv Hcap) as (lru' & Hstep). rewrite Hstep. simpl.
    destruct (step_inv _ _ _ Hinv Hstep) as (Hinv' & Hc & _).
    apply IH; [done|]. by rewrite Hc.
Qed.

(** ** Construction *)

(** C3, as the code has it: [NewLRUCache] checks nothing.  For every
    capacity and every expireSec, positive or not, it returns an empty
    cache, with an empty index and an empty order, that holds exactly
    these two settings. *)
Theorem NewLRUCache_always_succeeds (capacity0 expireSec0 : Z) :
  ∃ lru, NewLRUCache capacity0 expireSec0 = Ok lru ∧
         capacity lru = capacity0 ∧ expireSec lru = expireSec0 ∧
         cache lru = ∅ ∧ lst lru = [] ∧ lru_inv lru.
Proof.
  eexists. split; [reflexivity|]. simpl. do 4 (split; [reflexivity|]).
  apply lru_inv_new.
Qed.

(** C3 as the specification words it fails: a capacity of zero, a TTL of
    zero and negative settings are all accepted. *)
Lemma NewLRUCache_accepts_nonpositive :
  NewLRUCache 0 100 ≠ Panic ∧ NewLRUCache 2 0 ≠ Panic ∧
  NewLRUCache (-1) (-1) = Ok (mkLRUCache (-1) (-1) ∅ [] ∅ 0).
Proof. repeat split; discriminate. Qed.

(** ** Histories from a new cache *)

Lemma history_inv capacity0 expireSec0 ops lru :
  history capacity0 expireSec0 ops = Ok lru →
  lru_inv lru ∧ capacity lru = capacity0 ∧
  ((0 ≤ capacity0)%Z → bounded lru).
Proof.
  unfold history, NewLRUCache. simpl. intros Hrun.
  destruct (run_inv _ _ _ (lru_inv_new capacity0 expireSec0) Hrun)
    as (Hinv & Hc & _ & Hb).
  split; [done|]. split; [done|]. intros Hcap. apply Hb.
  unfold bounded. simpl. rewrite map_size_empty. simpl. lia.
Qed.

Lemma history_total capacity0 expireSec0 ops :
  (0 < capacity0)%Z → ∃ lru, history capacity0 expireSec0 ops = Ok lru.
Proof.
  intros Hcap. unfold history, NewLRUCache. simpl.
  apply run_total; [apply lru_inv_new|done].
Qed.

(** ** The sample states are states of the program *)

Lemma one_entry_history : history 2 100 [OpSet 1 10 0] = Ok one_entry.
Proof. vm_compute. reflexivity. Qed.

Lemma minus_one_entry_history : history 2 100 [OpSet 1 (-1) 0] = Ok minus_one_entry.
Proof. vm_compute. reflexivity. Qed.

Lemma full_cache_history :
  history 2 100 [OpSet 1 10 0; OpSet 2 20 1] = Ok full_cache.
Proof. vm_compute. reflexivity. Qed.

Lemma one_entry_inv : lru_inv one_entry.
Proof. exact (proj1 (history_inv _ _ _ _ one_entry_history)). Qed.

Lemma full_cache_inv : lru_inv full_cache.
Proof. exact (proj1 (history_inv _ _ _ _ full_cache_history)). Qed.

Lemma full_cache_range :
  range_of full_cache [(1, 100000000001); (2, 100000000001)]%Z.
Proof.
  split.
  - simpl. apply NoDup_cons. split; [|apply NoDup_singleton].
    rewrite list_elem_of_singleton. lia.
  - intros k. simpl. rewrite elem_of_cons, list_elem_of_singleton.
    unfold full_cache. simpl. split.
    + intros [->| ->]; by eexists.
    + intros [e He]. apply lookup_insert_Some in He as [[<- _]|[_ He]]; [by right|].
      apply lookup_insert_Some in He as [[<- _]|[_ He]]; [by left|].
      by rewrite lookup_empty in He.
Qed.

(** C4: from a cache built with a positive capacity, every history of
    Get, Set and sweep passes runs to its end, and the state it ends in
    has as many keys in the index as elements in the order, at most
    [capacity] of them.  A history is any list of operations, so this holds
    after each operation of a longer one. *)
Theorem size_invariant (capacity0 expireSec0 : Z) (ops : list Op) :
  (0 < capacity0)%Z →
  ∃ lru, history capacity0 expireSec0 ops = Ok lru ∧
         size (cache lru) = length (lst lru) ∧
         (Z.of_nat (length (lst lru)) ≤ capacity0)%Z.
Proof.
  intros Hcap. destruct (history_total capacity0 expireSec0 ops Hcap) as [lru Hrun].
  exists lru. split; [done|].
  destruct (history_inv _ _ _ _ Hrun) as (Hinv & Hc & Hb).
  split; [apply Hinv|]. rewrite <- (inv_size _ Hinv), <- Hc. apply Hb. lia.
Qed.

Lemma size_invariant_witness :
  (0 < 2)%Z ∧
  ∃ lru, history 2 100
           [OpSet 1 10 0; OpSet 2 20 1; OpGet 1 2; OpSet 3 30 3;
            OpSweep [(1, 100000000001); (3, 100000000001)]; OpGet 3 4]%Z = Ok lru ∧
         size (cache lru) = length (lst lru) ∧
         (Z.of_nat (length (lst lru)) ≤ 2)%Z.
Proof. split; [lia|]. apply size_invariant. lia. Defined.

(** C5: after every history from a new cache, every key of the index
    leads to an element that is in the order and holds an item with that
    same key.  A history stops short only by the panic of a Set, which
    takes a capacity that is not positive. *)
Theorem pairing_invariant (capacity0 expireSec0 : Z) (ops : list Op) :
  match history capacity0 expireSec0 ops with
  | Ok lru =>
      ∀ k e, cache lru !! k = Some e →
        e ∈ lst lru ∧ ∃ it, elems lru !! e = Some it ∧ key it = k
  | Panic => (capacity0 ≤ 0)%Z
  end.
Proof.
  destruct (history capacity0 expireSec0 ops) as [lru|] eqn:Hrun.
  - apply history_inv in Hrun as (Hinv & _). apply Hinv.
  - destruct (decide (0 < capacity0)%Z) as [Hcap|]; [|lia].
    destruct (history_total capacity0 expireSec0 ops Hcap) as [lru Hlru].
    congruence.
Qed.

Lemma pairing_invariant_witness :
  cache full_cache !! 2%Z = Some 1 ∧
  1 ∈ lst full_cache ∧ ∃ it, elems full_cache !! 1 = Some it ∧ key it = 2%Z.
Proof.
  split; [reflexivity|].
  pose proof (pairing_invariant 2 100 [OpSet 1 10 0; OpSet 2 20 1]) as Hpair.
  rewrite full_cache_history in Hpair. apply Hpair. reflexivity.
Defined.

(** ** Get *)

(** C10: a Get of a key the index does not have answers -1 and returns
    the very state it was given. *)
Theorem Get_absent_unchanged (lru : LRUCache) (k : Z) (now : Time) :
  cache lru !! k = None → Get k now lru = Ok ((-1)%Z, lru).
Proof. intros Hk. unfold Get. by rewrite Hk. Qed.

Lemma Get_absent_unchanged_witness :
  cache (mkLRUCache 2 100 (<[1%Z := 0]> ∅) [0] (<[0 := mkCacheItem 1 10 50]> ∅) 1) !! 7%Z = None ∧
  Get 7 3 (mkLRUCache 2 100 (<[1%Z := 0]> ∅) [0] (<[0 := mkCacheItem 1 10 50]> ∅) 1) =
    Ok ((-1)%Z, mkLRUCache 2 100 (<[1%Z := 0]> ∅) [0] (<[0 := mkCacheItem 1 10 50]> ∅) 1).
Proof. split; [reflexivity|]. apply Get_absent_unchanged. reflexivity. Defined.

(** C2, as the code decides it.  Get answers the sentinel -1 exactly when
    the key is absent from the index, or its entry is expired, which for
    the code means that [now] is strictly after [expireAt], or the stored
    value is itself -1.  In the expired case the key has left the index and
    the element has left the order when Get returns. *)
Theorem Get_NotFound_iff (lru : LRUCache) (k : Z) (now : Time) :
  lru_inv lru →
  ∃ r, Get k now lru = Ok r ∧
    (r.1 = (-1)%Z ↔
       cache lru !! k = None ∨
       ∃ e it, cache lru !! k = Some e ∧ elems lru !! e = Some it ∧
               ((expireAt it < now)%Z ∨ value it = (-1)%Z)) ∧
    (∀ e it, cache lru !! k = Some e → elems lru !! e = Some it →
       (expireAt it < now)%Z →
       r.1 = (-1)%Z ∧ cache r.2 !! k = None ∧ (e ∉ lst r.2) ∧
       size (cache r.2) = length (lst r.2)) ∧
    (∀ e it, cache lru !! k = Some e → elems lru !! e = Some it →
       (now ≤ expireAt it)%Z →
       r.1 = value it ∧ cache r.2 = cache lru ∧ head (lst r.2) = Some e).
Proof.
  intros Hinv. unfold Get. destruct (cache lru !! k) as [e|] eqn:Hk.
  - destruct (item_of_paired lru k e (inv_paired _ Hinv) Hk) as (it & -> & Hit & _).
    destruct (inv_paired _ Hinv k e Hk) as (Hin & _).
    simpl. unfold After. destruct (Z.ltb_spec (expireAt it) now) as [Hlt|Hge].
    + eexists. split; [done|]. simpl. split; [|split].
      * split; [|done]. intros _. right. exists e, it. auto.
      * intros e' it' [= <-] Hit' _. split; [done|].
        split; [apply lookup_delete_eq|].
        split; [rewrite elem_of_Remove; tauto|].
        exact (inv_size _ (lru_inv_remove lru k e Hinv Hk)).
      * intros e' it' [= <-] Hit' Hle. rewrite Hit in Hit'. injection Hit' as <-. lia.
    + eexists. split; [done|]. simpl. split; [|split].
      * split.
        -- intros Hv. right. exists e, it. auto.
        -- intros [?|(e' & it' & [= <-] & Hit' & Hor)]; [done|].
           rewrite Hit in Hit'. injection Hit' as <-. destruct Hor; [lia|done].
      * intros e' it' [= <-] Hit' Hlt. rewrite Hit in Hit'. injection Hit' as <-. lia.
      * intros e' it' [= <-] Hit' _. rewrite Hit in Hit'. injection Hit' as <-.
        split; [done|]. split; [done|].
        unfold MoveToFront. by rewrite decide_True.
  - eexists. split; [done|]. simpl. split; [|split].
    + split; [by left|done].
    + intros e it [=].
    + intros e it [=].
Qed.

(** ** Set *)

(** C6: on a cache that holds [capacity] entries, a Set of a new key
    returns.  It deletes the key of the back element from the index, takes
    the back element out of the order, whatever the deadline of that entry,
    and puts the new entry at the front.  The capacity is positive, as the
    data model of the specification has it. *)
Theorem Set_full_evicts_back (lru : LRUCache) (k v : Z) (now : Time) :
  lru_inv lru → (0 < capacity lru)%Z →
  cache lru !! k = None →
  Z.of_nat (size (cache lru)) = capacity lru →
  ∃ back it lru1,
    Back (lst lru) = Some back ∧ elems lru !! back = Some it ∧
    cache lru !! key it = Some back ∧
    SetKV k v now lru = Ok lru1 ∧
    cache lru1 = <[k := next lru]> (delete (key it) (cache lru)) ∧
    lst lru1 = next lru :: Remove back (lst lru) ∧
    elems lru1 !! next lru = Some (mkCacheItem k v (Add now (ttl lru))) ∧
    cache lru1 !! key it = None ∧ (back ∉ lst lru1) ∧
    size (cache lru1) = size (cache lru).
Proof.
  intros Hinv Hcap Hk Hfull.
  assert (Hne : lst lru ≠ []).
  { intros Hnil. pose proof (inv_size _ Hinv) as Hs. rewrite Hnil in Hs.
    simpl in Hs. lia. }
  destruct (evict_back_spec lru Hinv Hne) as (back & it & Hback & Hit & Hc & Hev).
  assert (Hkne : k ≠ key it) by (intros ->; congruence).
  eexists back, it, _. split; [done|]. split; [done|]. split; [done|].
  split.
  { unfold SetKV. rewrite Hk, bool_decide_eq_true_2 by lia. rewrite Hev. reflexivity. }
  simpl. split; [done|]. split; [done|].
  split; [apply lookup_insert_eq|].
  split; [rewrite lookup_insert_ne by done; apply lookup_delete_eq|].
  split.
  - unfold PushFront. rewrite elem_of_cons, elem_of_Remove.
    pose proof (inv_fresh _ Hinv back (Back_elem_of _ _ Hback)). intros [->|[_ ?]]; [lia|done].
  - rewrite map_size_insert_None by (apply lookup_delete_None; by right).
    rewrite map_size_delete, Hc. simpl.
    destruct (size (cache lru)); [lia|done].
Qed.

(** C7: a Set of [k] to [v] returns, and a Get of [k] that comes next, at
    a time not after the deadline the Set wrote, answers [v]. *)
Theorem Set_then_Get (lru : LRUCache) (k v : Z) (t1 t2 : Time) :
  lru_inv lru → (0 < capacity lru)%Z →
  (t2 ≤ Add t1 (ttl lru))%Z →
  ∃ lru1 lru2, SetKV k v t1 lru = Ok lru1 ∧ Get k t2 lru1 = Ok (v, lru2).
Proof.
  intros Hinv Hcap Hlive.
  assert (Hfresh : After t2 (Add t1 (ttl lru)) = false) by (by apply Z.ltb_ge).
  destruct (SetKV_total k v t1 lru Hinv Hcap) as [lru1 Hset].
  exists lru1.
  cut (∃ lru2, Get k t2 lru1 = Ok (v, lru2)).
  { intros [lru2 Hget]. by exists lru2. }
  revert Hset. unfold SetKV.
  destruct (cache lru !! k) as [e|] eqn:Hk.
  - destruct (item_of_paired lru k e (inv_paired _ Hinv) Hk) as (it & -> & _ & _).
    simpl. intros [= <-]. eexists. unfold Get, item_of. simpl.
    rewrite Hk, lookup_insert_eq. simpl. by rewrite Hfresh.
  - assert (Hput : ∀ lru', expireSec lru' = expireSec lru →
      ∃ lru2, Get k t2
        (mkLRUCache (capacity lru') (expireSec lru') (<[k := next lru']> (cache lru'))
           (PushFront (next lru') (lst lru'))
           (<[next lru' := mkCacheItem k v (Add t1 (ttl lru'))]> (elems lru'))
           (S (next lru'))) = Ok (v, lru2)).
    { intros lru' Hexp. eexists. unfold Get, item_of, ttl. simpl.
      rewrite !lookup_insert_eq. simpl. rewrite Hexp.
      fold (ttl lru). by rewrite Hfresh. }
    case_bool_decide.
    + destruct (evict_back lru) as [lru'|] eqn:Hev; [|done].
      simpl. intros [= <-]. apply Hput.
      unfold evict_back in Hev. destruct (Back (lst lru)) as [back|]; [|done].
      destruct (item_of lru back); [|done]. simpl in Hev. by injection Hev as <-.
    + simpl. intros [= <-]. by apply Hput.
Qed.

(** ** The sweep *)

(** What one visit of the range loop does to the state. *)
Lemma cleanup_visit_effect lru k t :
  lru_inv lru →
  ∃ lru1, cleanup_visit lru (k, t) = Ok lru1 ∧ lru_inv lru1 ∧
    elems lru1 = elems lru ∧
    (∀ k', k' ≠ k → cache lru1 !! k' = cache lru !! k') ∧
    (∀ k' e', k' ≠ k → cache lru !! k' = Some e' → e' ∈ lst lru1) ∧
    (∀ k' e', cache lru1 !! k' = Some e' → cache lru !! k' = Some e') ∧
    (∀ e', e' ∈ lst lru1 → e' ∈ lst lru) ∧
    (∀ e it, cache lru !! k = Some e → elems lru !! e = Some it →
       if After t (expireAt it)
       then cache lru1 !! k = None ∧ e ∉ lst lru1
       else lru1 = lru).
Proof.
  intros Hinv. unfold cleanup_visit. simpl.
  assert (Hsame : ∀ k' e', k' ≠ k → cache lru !! k' = Some e' → e' ∈ lst lru).
  { intros k' e' _ Hk'. by destruct (inv_paired _ Hinv k' e' Hk'). }
  destruct (cache lru !! k) as [e0|] eqn:Hk.
  - destruct (item_of_paired lru k e0 (inv_paired _ Hinv) Hk) as (it0 & -> & Hit0 & Hkey0).
    simpl. destruct (After t (expireAt it0)) eqn:Hafter.
    + eexists. split; [done|]. split; [by apply lru_inv_remove|]. simpl.
      split; [done|]. split; [|split; [|split; [|split]]].
      * intros k' Hne. by rewrite lookup_delete_ne.
      * intros k' e' Hne Hk'. apply elem_of_Remove.
        destruct (inv_paired _ Hinv k' e' Hk') as (Hin & it' & Hit' & Hkey').
        split; [done|]. intros ->. congruence.
      * intros k' e' Hk'. by apply lookup_delete_Some in Hk' as [_ ?].
      * intros e' He'. by apply elem_of_Remove in He' as [? _].
      * intros e it [= <-] Hit. rewrite Hit0 in Hit. injection Hit as <-.
        rewrite Hafter. split; [apply lookup_delete_eq|].
        rewrite elem_of_Remove. tauto.
    + exists lru. do 7 (split; [done|]).
      intros e it [= <-] Hit. rewrite Hit0 in Hit. injection Hit as <-.
      by rewrite Hafter.
  - exists lru. do 7 (split; [done|]). intros e it [=].
Qed.

(** What a pass that visits no key twice does. *)
Lemma cleanup_pass_effect visits : ∀ lru,
  lru_inv lru → NoDup visits.*1 →
  ∃ lru1, cleanup_pass visits lru = Ok lru1 ∧
    elems lru1 = elems lru ∧
    (∀ k e, cache lru1 !! k = Some e → cache lru !! k = Some e) ∧
    (∀ e, e ∈ lst lru1 → e ∈ lst lru) ∧
    (∀ k e, k ∉ visits.*1 → cache lru !! k = Some e →
       cache lru1 !! k = Some e ∧ e ∈ lst lru1) ∧
    (∀ k t e it, (k, t) ∈ visits →
       cache lru !! k = Some e → elems lru !! e = Some it →
       if After t (expireAt it)
       then cache lru1 !! k = None ∧ e ∉ lst lru1
       else cache lru1 !! k = Some e ∧ e ∈ lst lru1).
Proof.
  induction visits as [|[k0 t0] rest IH]; intros lru Hinv Hnd.
  - exists lru. simpl. do 4 (split; [done|]). split.
    + intros k e _ Hk. split; [done|]. by destruct (inv_paired _ Hinv k e Hk).
    + intros k t e it Hin. by apply elem_of_nil in Hin.
  - simpl in Hnd. apply NoDup_cons in Hnd as [Hk0 Hnd].
    destruct (cleanup_visit_effect lru k0 t0 Hinv)
      as (lru' & Hvisit & Hinv' & Hel' & Hoth' & Hkeep' & Hmono' & Hlst' & Hthis').
    destruct (IH lru' Hinv' Hnd)
      as (lru1 & Hpass & Hel & Hmono & Hlst & Hskip & Hseen).
    exists lru1. simpl. rewrite Hvisit. simpl.
    split; [done|]. split; [congruence|]. split; [auto|]. split; [auto|]. split.
    + intros k e Hk Hc. apply not_elem_of_cons in Hk as [Hne Hk].
      apply Hskip; [done|]. by rewrite Hoth'.
    + intros k t e it Hin Hc Hit. apply elem_of_cons in Hin as [[= -> ->]|Hin].
      * specialize (Hthis' e it Hc Hit). destruct (After t0 (expireAt it)).
        -- destruct Hthis' as [Hgone Hout]. split.
           ++ destruct (cache lru1 !! k0) as [e1|] eqn:H1; [|done].
              apply Hmono in H1. congruence.
           ++ intros Hin. by apply Hlst in Hin.
        -- subst lru'. by apply Hskip.
      * assert (Hne : k ≠ k0).
        { intros ->. apply Hk0. apply list_elem_of_fmap. by exists (k0, t). }
        apply (Hseen k t e it Hin); [by rewrite Hoth'|by rewrite Hel'].
Qed.

(** C9: one sweep pass returns, and for every entry of the cache it
    started on, the pass looked at the entry at some clock reading [t]; if
    the deadline had passed at [t] the key has left the index and the
    element has left the order, and if not both are still there with the
    item as it was.  No hypothesis bounds the number of entries, and
    nothing is added by the pass. *)
Theorem sweep_removes_exactly_expired (lru : LRUCache) (visits : list (Z * Time)) :
  lru_inv lru → range_of lru visits →
  ∃ lru1, cleanup_pass visits lru = Ok lru1 ∧
    (∀ k, cache lru !! k = None → cache lru1 !! k = None) ∧
    (∀ k e it, cache lru !! k = Some e → elems lru !! e = Some it →
       ∃ t, (k, t) ∈ visits ∧
         if After t (expireAt it)
         then cache lru1 !! k = None ∧ e ∉ lst lru1
         else cache lru1 !! k = Some e ∧ e ∈ lst lru1 ∧
              elems lru1 !! e = Some it).
Proof.
  intros Hinv [Hnd Hcover].
  destruct (cleanup_pass_effect visits lru Hinv Hnd)
    as (lru1 & Hpass & Hel & Hmono & Hlst & Hskip & Hseen).
  exists lru1. split; [done|]. split.
  - intros k Hk. destruct (cache lru1 !! k) as [e|] eqn:H1; [|done].
    apply Hmono in H1. congruence.
  - intros k e it Hc Hit.
    assert (Hin : k ∈ visits.*1) by (apply Hcover; eauto).
    apply list_elem_of_fmap in Hin as ([k' t] & Hk' & Hin). simpl in Hk'. subst k'.
    exists t. split; [done|].
    specialize (Hseen k t e it Hin Hc Hit).
    destruct (After t (expireAt it)); [done|].
    destruct Hseen. by rewrite Hel.
Qed.

(** ** C2 in the words of the specification, and where it fails *)

(** At the instant of the deadline itself, where [now >= expireAt] holds,
    Get still serves the entry and leaves it where it is.  And an entry
    that is present and far from its deadline, but holds the value -1, is
    answered by -1. *)
Lemma Get_serves_at_deadline :
  (cache one_entry !! 1%Z = Some 0 ∧
   elems one_entry !! 0 = Some (mkCacheItem 1 10 100000000000) ∧
   (100000000000 >= expireAt (mkCacheItem 1 10 100000000000))%Z ∧
   Get 1 100000000000 one_entry = Ok (10%Z, one_entry) ∧ 10%Z ≠ (-1)%Z) ∧
  (cache minus_one_entry !! 1%Z = Some 0 ∧
   elems minus_one_entry !! 0 = Some (mkCacheItem 1 (-1) 100000000000) ∧
   ¬ (5 >= expireAt (mkCacheItem 1 (-1) 100000000000))%Z ∧
   Get 1 5 minus_one_entry = Ok ((-1)%Z, minus_one_entry)).
Proof.
  split.
  - split; [reflexivity|]. split; [reflexivity|]. split; [simpl; lia|].
    split; [vm_compute; reflexivity|lia].
  - split; [reflexivity|]. split; [reflexivity|]. split; [simpl; lia|].
    vm_compute. reflexivity.
Qed.

Lemma Get_NotFound_iff_witness :
  lru_inv one_entry ∧
  ∃ r, Get 1 100000000001 one_entry = Ok r ∧
       r.1 = (-1)%Z ∧ cache r.2 !! 1%Z = None ∧ (0 ∉ lst r.2).
Proof.
  split; [exact one_entry_inv|].
  destruct (Get_NotFound_iff one_entry 1 100000000001 one_entry_inv)
    as (r & Hget & _ & Hexpired & _).
  exists r. split; [exact Hget|].
  destruct (Hexpired 0 (mkCacheItem 1 10 100000000000)) as (H1 & H2 & H3 & _);
    [reflexivity|reflexivity|simpl; lia|].
  split; [exact H1|]. split; [exact H2|exact H3].
Defined.

(** ** Witnesses for Set and the sweep *)

Lemma Set_full_evicts_back_witness :
  lru_inv full_cache ∧ (0 < capacity full_cache)%Z ∧
  cache full_cache !! 3%Z = None ∧
  Z.of_nat (size (cache full_cache)) = capacity full_cache ∧
  ∃ back it lru1,
    Back (lst full_cache) = Some back ∧ elems full_cache !! back = Some it ∧
    cache full_cache !! key it = Some back ∧
    SetKV 3 30 3 full_cache = Ok lru1 ∧
    cache lru1 = <[3%Z := next full_cache]> (delete (key it) (cache full_cache)) ∧
    lst lru1 = next full_cache :: Remove back (lst full_cache) ∧
    elems lru1 !! next full_cache =
      Some (mkCacheItem 3 30 (Add 3 (ttl full_cache))) ∧
    cache lru1 !! key it = None ∧ (back ∉ lst lru1) ∧
    size (cache lru1) = size (cache full_cache).
Proof.
  split; [exact full_cache_inv|]. split; [simpl; lia|].
  split; [reflexivity|]. split; [reflexivity|].
  apply Set_full_evicts_back;
    [exact full_cache_inv|simpl; lia|reflexivity|reflexivity].
Defined.

Lemma Set_then_Get_witness :
  lru_inv full_cache ∧ (0 < capacity full_cache)%Z ∧
  (4 ≤ Add 3 (ttl full_cache))%Z ∧
  ∃ lru1 lru2, SetKV 3 30 3 full_cache = Ok lru1 ∧ Get 3 4 lru1 = Ok (30%Z, lru2).
Proof.
  split; [exact full_cache_inv|]. split; [simpl; lia|].
  split; [by vm_compute|].
  apply Set_then_Get; [exact full_cache_inv|simpl; lia|by vm_compute].
Defined.

Lemma sweep_removes_exactly_expired_witness :
  lru_inv full_cache ∧
  range_of full_cache [(1, 100000000001); (2, 100000000001)]%Z ∧
  ∃ lru1,
    cleanup_pass [(1, 100000000001); (2, 100000000001)]%Z full_cache = Ok lru1 ∧
    (∀ k, cache full_cache !! k = None → cache lru1 !! k = None) ∧
    (∀ k e it, cache full_cache !! k = Some e → elems full_cache !! e = Some it →
       ∃ t, (k, t) ∈ [(1, 100000000001); (2, 100000000001)]%Z ∧
         if After t (expireAt it)
         then cache lru1 !! k = None ∧ e ∉ lst lru1
         else cache lru1 !! k = Some e ∧ e ∈ lst lru1 ∧
              elems lru1 !! e = Some it).
Proof.
  split; [exact full_cache_inv|]. split; [exact full_cache_range|].
  apply sweep_removes_exactly_expired;
    [exact full_cache_inv|exact full_cache_range].
Defined.

Example sweep_full_cache :
  cleanup_pass [(1, 100000000001); (2, 100000000001)]%Z full_cache =
  Ok (mkLRUCache 2 100 (<[2%Z := 1]> ∅) [1] (elems full_cache) 2).
Proof. vm_compute. reflexivity. Qed.

(** ** The scenario of the specification *)

Lemma Get_live lru k now e it :
  cache lru !! k = Some e → elems lru !! e = Some it →
  (now ≤ expireAt it)%Z →
  Get k now lru = Ok (value it, set_lst (MoveToFront e) lru).
Proof.
  intros Hk Hit Hle. unfold Get, item_of, After. rewrite Hk, Hit. simpl.
  by rewrite (proj2 (Z.ltb_ge _ _) Hle).
Qed.

(** C8: with capacity 2, whatever the values and the clock readings, as
    long as no read comes after a deadline: Set(1,a); Set(2,b); Get(1);
    Set(3,c) all return, the last Set takes key 2 out of the index and
    leaves key 1 in, and then Get(2) answers -1 for an absent key, Get(1)
    answers [a] and Get(3) answers [c]. *)
Theorem recency_refresh (expireSec0 a b c : Z) (t1 t2 t3 t4 t5 t6 t7 : Time) :
  (t3 ≤ Add t1 (int64 (expireSec0 * Second)))%Z →
  (t6 ≤ Add t1 (int64 (expireSec0 * Second)))%Z →
  (t7 ≤ Add t4 (int64 (expireSec0 * Second)))%Z →
  ∃ l0 l1 l2 l3 l4 l5 l6 l7,
    NewLRUCache 2 expireSec0 = Ok l0 ∧ SetKV 1 a t1 l0 = Ok l1 ∧
    SetKV 2 b t2 l1 = Ok l2 ∧ Get 1 t3 l2 = Ok (a, l3) ∧
    is_Some (cache l3 !! 2%Z) ∧
    SetKV 3 c t4 l3 = Ok l4 ∧
    cache l4 !! 2%Z = None ∧ is_Some (cache l4 !! 1%Z) ∧
    Get 2 t5 l4 = Ok ((-1)%Z, l5) ∧ Get 1 t6 l5 = Ok (a, l6) ∧
    Get 3 t7 l6 = Ok (c, l7).
Proof.
  intros H3 H6 H7. do 8 eexists.
  do 3 (split; [reflexivity|]).
  split.
  { apply (Get_live _ _ _ 0 (mkCacheItem 1 a (Add t1 (int64 (expireSec0 * Second)))));
      [reflexivity|reflexivity|exact H3]. }
  split; [by exists 1|].
  do 2 (split; [reflexivity|]).
  split; [by exists 0|].
  split; [reflexivity|].
  split.
  { apply (Get_live _ _ _ 0 (mkCacheItem 1 a (Add t1 (int64 (expireSec0 * Second)))));
      [reflexivity|reflexivity|exact H6]. }
  apply (Get_live _ _ _ 2 (mkCacheItem 3 c (Add t4 (int64 (expireSec0 * Second)))));
    [reflexivity|reflexivity|exact H7].
Qed.

Lemma recency_refresh_witness :
  (2 ≤ Add 0 (int64 (100 * Second)))%Z ∧
  (5 ≤ Add 0 (int64 (100 * Second)))%Z ∧
  (6 ≤ Add 3 (int64 (100 * Second)))%Z ∧
  ∃ l0 l1 l2 l3 l4 l5 l6 l7,
    NewLRUCache 2 100 = Ok l0 ∧ SetKV 1 10 0 l0 = Ok l1 ∧
    SetKV 2 20 1 l1 = Ok l2 ∧ Get 1 2 l2 = Ok (10%Z, l3) ∧
    is_Some (cache l3 !! 2%Z) ∧
    SetKV 3 30 3 l3 = Ok l4 ∧
    cache l4 !! 2%Z = None ∧ is_Some (cache l4 !! 1%Z) ∧
    Get 2 4 l4 = Ok ((-1)%Z, l5) ∧ Get 1 5 l5 = Ok (10%Z, l6) ∧
    Get 3 6 l6 = Ok (30%Z, l7).
Proof.
  split; [by vm_compute|]. split; [by vm_compute|]. split; [by vm_compute|].
  apply recency_refresh; by vm_compute.
Defined.

(** ** The transport *)

Lemma settable_CacheItem : settable CacheItem_fields = [].
Proof. reflexivity. Qed.

Lemma decode_members_no_field parseTime members item :
  decode_members parseTime [] members item = Some item.
Proof. induction members as [|member rest IH]; [done|]. simpl. exact IH. Qed.

(** Whatever the members of the object in the body, the handler calls
    Set with the zero key and the zero value. *)
Lemma SetHandler_ignores_members parseTime now members lru :
  SetHandler parseTime now (mkRequest "POST" (Some (JObject members))) lru =
  lru1 ← SetKV 0 0 now lru; Ok (StatusCreated, lru1).
Proof.
  unfold SetHandler, Decode. simpl Method. simpl Body.
  rewrite decide_False by (intros H; by apply H).
  rewrite settable_CacheItem, decode_members_no_field. reflexivity.
Qed.

(** C1, on the cache [main] builds: the request that carries key 5 and
    value 7 is acknowledged with 201, but the call it makes is Set(0, 0).
    Afterwards key 5 is absent and key 0 holds the value 0. *)
Theorem SetHandler_drops_key_and_value (parseTime : string → option Time) (now : Time) :
  ∃ lru0 lru1,
    NewLRUCache 1024 50000 = Ok lru0 ∧
    SetHandler parseTime now post_5_7 lru0 = Ok (StatusCreated, lru1) ∧
    SetKV 0 0 now lru0 = Ok lru1 ∧
    SetKV 5 7 now lru0 ≠ Ok lru1 ∧
    cache lru1 !! 5%Z = None ∧ cache lru1 !! 0%Z = Some 0 ∧
    elems lru1 !! 0 = Some (mkCacheItem 0 0 (Add now (int64 (50000 * Second)))).
Proof.
  do 2 eexists. split; [reflexivity|]. split.
  { unfold post_5_7. rewrite SetHandler_ignores_members. reflexivity. }
  split; [reflexivity|]. split.
  { intros Heq.
    apply (f_equal (λ o, match o with Ok l => cache l !! 5%Z | Panic => None end)) in Heq.
    vm_compute in Heq. discriminate. }
  split; [reflexivity|]. split; reflexivity.
Qed.

(** * More of the program *)

(** ** strconv.Atoi on sample strings *)

Example Atoi_samples :
  Atoi "42" = Some 42%Z ∧ Atoi "-7" = Some (-7)%Z ∧ Atoi "+7" = Some 7%Z ∧
  Atoi "007" = Some 7%Z ∧ Atoi "" = None ∧ Atoi "-" = None ∧ Atoi "+" = None ∧
  Atoi "1_0" = None ∧ Atoi " 1" = None ∧ Atoi "1.5" = None ∧ Atoi "abc" = None ∧
  Atoi "9223372036854775807" = Some 9223372036854775807%Z ∧
  Atoi "9223372036854775808" = None ∧
  Atoi "-9223372036854775808" = Some (-9223372036854775808)%Z ∧
  Atoi "-9223372036854775809" = None.
Proof. repeat split; reflexivity. Qed.

(** ** Lists of elements and the items behind them *)

Lemma omap_cons (f : Element → option CacheItem) e (l : list Element) :
  omap f (e :: l) = match f e with Some it => it :: omap f l | None => omap f l end.
Proof. reflexivity. Qed.

Lemma omap_filter_comm (f : Element → option CacheItem)
    (P : Element → Prop) (Q : CacheItem → Prop)
    `{!∀ e, Decision (P e)} `{!∀ x, Decision (Q x)} (l : list Element) :
  (∀ e it, e ∈ l → f e = Some it → (P e ↔ Q it)) →
  omap f (filter P l) = filter Q (omap f l).
Proof.
  induction l as [|e l IH]; intros Hagree; [done|].
  assert (IH' : omap f (filter P l) = filter Q (omap f l)).
  { apply IH. intros e' it' He'. apply Hagree. by right. }
  rewrite omap_cons. destruct (f e) as [it|] eqn:Hfe.
  - assert (Hiff : P e ↔ Q it) by (apply Hagree; [by left|done]).
    destruct (decide (P e)) as [HP|HP].
    + rewrite filter_cons_True by done. rewrite omap_cons, Hfe.
      rewrite filter_cons_True by tauto. by rewrite IH'.
    + rewrite filter_cons_False by done.
      rewrite filter_cons_False by tauto. done.
  - destruct (decide (P e)).
    + rewrite filter_cons_True by done. by rewrite omap_cons, Hfe.
    + by rewrite filter_cons_False by done.
Qed.

Lemma omap_agree (f g : Element → option CacheItem) (l : list Element) :
  (∀ e, e ∈ l → f e = g e) → omap f l = omap g l.
Proof.
  induction l as [|e l IH]; intros Hfg; [done|]. rewrite !omap_cons.
  rewrite (Hfg e) by (by left). rewrite IH; [done|].
  intros e' He'. apply Hfg. by right.
Qed.

Lemma Remove_back (l : list Element) back :
  NoDup l → Back l = Some back → Remove back l = removelast l.
Proof.
  unfold Back. intros Hnd Hlast. apply last_Some in Hlast as [l' ->].
  apply NoDup_app in Hnd as (_ & Hsep & _).
  rewrite List.removelast_last. unfold Remove. rewrite filter_app.
  rewrite filter_cons_False by (intros H; by apply H). rewrite filter_nil, app_nil_r.
  apply Remove_absent. intros Hin. apply (Hsep _ Hin). by left.
Qed.

Lemma omap_removelast (f : Element → option CacheItem) (l : list Element) back :
  last l = Some back → is_Some (f back) →
  omap f (removelast l) = removelast (omap f l).
Proof.
  intros Hlast [it Hit]. apply last_Some in Hlast as [l' ->].
  rewrite List.removelast_last, omap_app, omap_cons, Hit. simpl.
  by rewrite List.removelast_last.
Qed.

Lemma filter_key_absent (l : list CacheItem) k :
  k ∉ key <$> l → filter (λ x, key x = k) l = [].
Proof.
  induction l as [|x l IH]; intros Hk; [done|].
  rewrite fmap_cons in Hk. apply not_elem_of_cons in Hk as [Hne Hk].
  rewrite filter_cons_False by congruence. by apply IH.
Qed.

Lemma filter_key_unique (l : list CacheItem) it :
  NoDup (key <$> l) → it ∈ l →
  filter (λ x, key x = key it) l = [it].
Proof.
  induction l as [|x l IH]; intros Hnd Hin; [by apply elem_of_nil in Hin|].
  rewrite fmap_cons in Hnd. apply NoDup_cons in Hnd as [Hx Hnd].
  apply elem_of_cons in Hin as [->|Hin].
  - rewrite filter_cons_True by done. f_equal. by apply filter_key_absent.
  - rewrite filter_cons_False; [by apply IH|].
    intros Heq. apply Hx. rewrite Heq. apply list_elem_of_fmap. by exists it.
Qed.

Lemma NoDup_keys_omap (f : Element → option CacheItem) (l : list Element) :
  NoDup l →
  (∀ e1 e2 it1 it2, e1 ∈ l → e2 ∈ l → f e1 = Some it1 → f e2 = Some it2 →
     key it1 = key it2 → e1 = e2) →
  NoDup (key <$> omap f l).
Proof.
  induction l as [|e l IH]; intros Hnd Hinj; [constructor|].
  apply NoDup_cons in Hnd as [He Hnd].
  assert (IH' : NoDup (key <$> omap f l)).
  { apply IH; [done|]. intros e1 e2 it1 it2 H1 H2. apply Hinj; by right. }
  rewrite omap_cons. destruct (f e) as [it|] eqn:Hfe; [|done].
  rewrite fmap_cons. apply NoDup_cons. split; [|done].
  intros Hin. apply list_elem_of_fmap in Hin as (it' & Hkey & Hin).
  apply list_elem_of_omap in Hin as (e' & He' & Hfe').
  assert (e = e') as <-; [|done].
  apply (Hinj e e' it it'); [by left|by right|done|done|done].
Qed.

Lemma length_omap_defined (f : Element → option CacheItem) (l : list Element) :
  (∀ e, e ∈ l → is_Some (f e)) → length (omap f l) = length l.
Proof.
  induction l as [|e l IH]; intros Hdef; [done|]. rewrite omap_cons.
  destruct (Hdef e) as [it ->]; [by left|]. simpl. f_equal.
  apply IH. intros e' He'. apply Hdef. by right.
Qed.

(** ** The items of a state that satisfies the invariant *)

Lemma items_keys_NoDup lru : lru_inv lru → NoDup (key <$> items lru).
Proof.
  intros Hinv. apply NoDup_keys_omap; [apply Hinv|].
  intros e1 e2 it1 it2 H1 H2 Hit1 Hit2 Hkey.
  destruct (inv_indexed _ Hinv e1 H1) as (it1' & Hit1' & Hc1).
  destruct (inv_indexed _ Hinv e2 H2) as (it2' & Hit2' & Hc2).
  rewrite Hit1 in Hit1'. rewrite Hit2 in Hit2'.
  injection Hit1' as <-. injection Hit2' as <-. congruence.
Qed.

Lemma items_length lru : lru_inv lru → length (items lru) = length (lst lru).
Proof.
  intros Hinv. apply length_omap_defined. intros e He.
  destruct (inv_indexed _ Hinv e He) as (it & Hit & _). by exists it.
Qed.

Lemma items_of_cache lru k e it :
  lru_inv lru → cache lru !! k = Some e → elems lru !! e = Some it →
  it ∈ items lru ∧ key it = k.
Proof.
  intros Hinv Hk Hit. destruct (inv_paired _ Hinv k e Hk) as (Hin & it' & Hit' & Hkey).
  rewrite Hit in Hit'. injection Hit' as <-. split; [|done].
  apply list_elem_of_omap. by exists e.
Qed.

Lemma cache_of_items lru it :
  lru_inv lru → it ∈ items lru →
  ∃ e, cache lru !! key it = Some e ∧ elems lru !! e = Some it ∧ e ∈ lst lru.
Proof.
  intros Hinv Hin. apply list_elem_of_omap in Hin as (e & He & Hit).
  destruct (inv_indexed _ Hinv e He) as (it' & Hit' & Hc).
  rewrite Hit in Hit'. injection Hit' as <-. by exists e.
Qed.

Lemma items_keys_cache lru k :
  lru_inv lru → (k ∈ key <$> items lru ↔ is_Some (cache lru !! k)).
Proof.
  intros Hinv. split.
  - intros Hin. apply list_elem_of_fmap in Hin as (it & -> & Hin).
    destruct (cache_of_items lru it Hinv Hin) as (e & Hc & _). by exists e.
  - intros [e Hk]. destruct (item_of_paired lru k e (inv_paired _ Hinv) Hk)
      as (it & _ & Hit & Hkey).
    apply list_elem_of_fmap. exists it. split; [done|].
    by destruct (items_of_cache lru k e it Hinv Hk Hit).
Qed.

(** Taking the element of key [k] out of the list takes the item of key
    [k] out of the items. *)
Lemma items_Remove lru k e :
  lru_inv lru → cache lru !! k = Some e →
  omap (λ e', elems lru !! e') (Remove e (lst lru)) =
  filter (λ x, key x ≠ k) (items lru).
Proof.
  intros Hinv Hk. unfold Remove, items. apply omap_filter_comm.
  intros e' it' He' Hit'.
  destruct (inv_indexed _ Hinv e' He') as (it'' & Hit'' & Hc').
  rewrite Hit' in Hit''. injection Hit'' as <-.
  destruct (inv_paired _ Hinv k e Hk) as (_ & it & Hit & Hkey).
  split.
  - intros Hne Heq. apply Hne. congruence.
  - intros Hne ->. congruence.
Qed.

Lemma items_push lru (l : list Element) (it : CacheItem) :
  (∀ e, e ∈ l → e < next lru) →
  omap (λ e, <[next lru := it]> (elems lru) !! e) (next lru :: l) =
  it :: omap (λ e, elems lru !! e) l.
Proof.
  intros Hfresh. rewrite omap_cons, lookup_insert_eq. f_equal.
  apply omap_agree. intros e He. rewrite lookup_insert_ne; [done|].
  apply Hfresh in He. lia.
Qed.

(** The items after a Set that returned. *)
Lemma SetKV_items k v now lru lru1 :
  lru_inv lru → SetKV k v now lru = Ok lru1 →
  items lru1 =
    new_item lru k v now ::
      (if decide (k ∈ key <$> items lru) then filter (λ x, key x ≠ k) (items lru)
       else if decide (capacity lru ≤ Z.of_nat (length (items lru)))%Z
            then removelast (items lru)
            else items lru).
Proof.
  intros Hinv. pose proof (items_keys_cache lru k Hinv) as Hkeys.
  pose proof (items_length lru Hinv) as Hlen.
  pose proof (inv_size _ Hinv) as Hsize.
  unfold SetKV. destruct (cache lru !! k) as [e|] eqn:Hk.
  - destruct (item_of_paired lru k e (inv_paired _ Hinv) Hk) as (it & -> & Hit & Hkey).
    destruct (inv_paired _ Hinv k e Hk) as (Hin & _).
    simpl. intros [= <-]. rewrite decide_True by (apply Hkeys; eauto).
    unfold items at 1. simpl. unfold MoveToFront. rewrite decide_True by done.
    rewrite omap_cons, lookup_insert_eq. unfold new_item. rewrite Hkey. f_equal.
    rewrite <- (items_Remove lru k e Hinv Hk). apply omap_agree.
    intros e' He'. apply elem_of_Remove in He' as [_ Hne].
    by rewrite lookup_insert_ne.
  - rewrite decide_False by (rewrite Hkeys; by intros [? ?]).
    case_bool_decide as Hfull.
    + destruct (evict_back lru) as [lru'|] eqn:Hev; [|done].
      destruct (evict_back_spec lru Hinv (evict_back_Ok _ _ Hev))
        as (back & it & Hback & Hit & Hc & Hev').
      rewrite Hev' in Hev. injection Hev as <-. simpl. intros [= <-].
      rewrite decide_True by lia. unfold items at 1.
      cbn [lst elems next set_lst set_cache PushFront].
      rewrite (items_push lru).
      * unfold new_item. f_equal.
        rewrite (Remove_back _ _ (inv_nodup _ Hinv) Hback).
        apply (omap_removelast _ _ back); [done|by exists it].
      * intros e' He'. apply elem_of_Remove in He' as [He' _].
        by apply (inv_fresh _ Hinv).
    + simpl. intros [= <-]. rewrite decide_False by lia.
      unfold items at 1. cbn [lst elems next PushFront].
      rewrite (items_push lru); [done|apply Hinv].
Qed.

(** ** The order and the index hold the same keys *)

(** X1.  After every history from a new cache, no key occurs twice among the
    items of the order, the order has as many items as the index has keys,
    and a key is in the index exactly when an item of the order carries
    it. *)
Theorem order_matches_index (capacity0 expireSec0 : Z) (ops : list Op) :
  match history capacity0 expireSec0 ops with
  | Ok lru =>
      NoDup (key <$> items lru) ∧
      length (items lru) = size (cache lru) ∧
      ∀ k, k ∈ key <$> items lru ↔ is_Some (cache lru !! k)
  | Panic => (capacity0 ≤ 0)%Z
  end.
Proof.
  destruct (history capacity0 expireSec0 ops) as [lru|] eqn:Hrun.
  - apply history_inv in Hrun as (Hinv & _).
    split; [by apply items_keys_NoDup|].
    split; [by rewrite items_length, (inv_size _ Hinv)|].
    intros k. by apply items_keys_cache.
  - destruct (decide (0 < capacity0)%Z) as [Hcap|]; [|lia].
    destruct (history_total capacity0 expireSec0 ops Hcap) as [lru Hlru].
    congruence.
Qed.

(** ** What Get does to the order *)

(** X2.  Get returns, and never writes to an item: values and deadlines stay
    as they are, a hit does not renew the deadline.  A key no item carries
    gives -1 and the same state.  For the item that carries the key: after
    its deadline Get gives -1 and the item leaves the order; up to the
    deadline Get gives its value and the item moves to the front.  The
    other items keep their relative order. *)
Theorem Get_items (lru : LRUCache) (k : Z) (now : Time) :
  lru_inv lru →
  ∃ r, Get k now lru = Ok r ∧ elems r.2 = elems lru ∧
    (k ∉ key <$> items lru → r = ((-1)%Z, lru)) ∧
    (∀ it, it ∈ items lru → key it = k →
       if After now (expireAt it)
       then r.1 = (-1)%Z ∧ items r.2 = filter (λ x, key x ≠ k) (items lru)
       else r.1 = value it ∧
            items r.2 = it :: filter (λ x, key x ≠ k) (items lru)).
Proof.
  intros Hinv. pose proof (items_keys_cache lru k Hinv) as Hkeys.
  unfold Get. destruct (cache lru !! k) as [e|] eqn:Hk.
  - destruct (item_of_paired lru k e (inv_paired _ Hinv) Hk) as (it0 & -> & Hit0 & Hkey0).
    destruct (inv_paired _ Hinv k e Hk) as (Hin & _).
    assert (Hsame : ∀ it, it ∈ items lru → key it = k → it = it0).
    { intros it Hit Hkey. destruct (cache_of_items lru it Hinv Hit) as (e' & Hc & Hit' & _).
      rewrite Hkey, Hk in Hc. injection Hc as <-. congruence. }
    simpl. destruct (After now (expireAt it0)) eqn:Hafter.
    + eexists. split; [done|]. simpl. split; [done|]. split.
      * intros Hnot. exfalso. apply Hnot, Hkeys. eauto.
      * intros it Hit Hkey. rewrite (Hsame it Hit Hkey), Hafter. split; [done|].
        unfold items at 1. cbn [lst elems set_lst set_cache].
        by apply items_Remove.
    + eexists. split; [done|]. simpl. split; [done|]. split.
      * intros Hnot. exfalso. apply Hnot, Hkeys. eauto.
      * intros it Hit Hkey. rewrite (Hsame it Hit Hkey), Hafter. split; [done|].
        unfold items at 1. cbn [lst elems set_lst]. unfold MoveToFront.
        rewrite decide_True by done. rewrite omap_cons, Hit0. f_equal.
        by apply items_Remove.
  - eexists. split; [done|]. simpl. split; [done|]. split; [done|].
    intros it Hit Hkey. exfalso.
    destruct (cache_of_items lru it Hinv Hit) as (e' & Hc & _).
    rewrite Hkey in Hc. congruence.
Qed.

Lemma Get_items_witness :
  lru_inv full_cache ∧
  ∃ r, Get 1 5 full_cache = Ok r ∧ r.1 = 10%Z ∧
       key <$> items r.2 = [1; 2]%Z ∧ elems r.2 = elems full_cache.
Proof.
  split; [exact full_cache_inv|].
  destruct (Get_items full_cache 1 5 full_cache_inv) as (r & Hget & Hel & _ & Hhit).
  exists r. split; [exact Hget|].
  destruct (Hhit (mkCacheItem 1 10 100000000000)) as [Hv Hitems].
  - unfold items, full_cache. simpl. right. left.
  - reflexivity.
  - split; [exact Hv|]. split; [|exact Hel]. rewrite Hitems. reflexivity.
Defined.

(** ** What Set does to the order *)

(** X3.  A Set on a cache of positive capacity returns, and the new order is
    the item it wrote followed by: the old items without the one of the
    same key, when the key was there (nothing else leaves, however full
    the cache is); else the old items without the last, when the cache
    holds [capacity] items or more; else all of the old items. *)
Theorem Set_items (lru : LRUCache) (k v : Z) (now : Time) :
  lru_inv lru → (0 < capacity lru)%Z →
  ∃ lru1, SetKV k v now lru = Ok lru1 ∧
    items lru1 =
      new_item lru k v now ::
        (if decide (k ∈ key <$> items lru) then filter (λ x, key x ≠ k) (items lru)
         else if decide (capacity lru ≤ Z.of_nat (length (items lru)))%Z
              then removelast (items lru)
              else items lru).
Proof.
  intros Hinv Hcap. destruct (SetKV_total k v now lru Hinv Hcap) as [lru1 Hset].
  exists lru1. split; [done|]. by apply SetKV_items.
Qed.

Lemma Set_items_witness :
  lru_inv full_cache ∧ (0 < capacity full_cache)%Z ∧
  ∃ lru1, SetKV 1 11 7 full_cache = Ok lru1 ∧
          items lru1 = [mkCacheItem 1 11 100000000007; mkCacheItem 2 20 100000000001].
Proof.
  split; [exact full_cache_inv|]. split; [simpl; lia|].
  destruct (Set_items full_cache 1 11 7 full_cache_inv) as (lru1 & Hset & Hitems);
    [simpl; lia|].
  exists lru1. split; [exact Hset|]. rewrite Hitems. reflexivity.
Defined.

(** ** Eviction follows the order of insertion *)

Lemma run_app ops1 ops2 lru :
  run (ops1 ++ ops2) lru = lru1 ← run ops1 lru; run ops2 lru1.
Proof.
  revert lru. induction ops1 as [|op ops1 IH]; intros lru; [done|].
  simpl. destruct (step lru op) as [lru'|]; [|done]. simpl. apply IH.
Qed.

Lemma removelast_take {A} (l : list A) n :
  S n ≤ length l → removelast (take (S n) l) = take n l.
Proof.
  intros Hlen. rewrite List.removelast_firstn_len.
  rewrite length_take_le by done. simpl.
  change (firstn n (take (S n) l)) with (take n (take (S n) l)).
  rewrite take_take. f_equal. lia.
Qed.

Lemma sets_items capacity0 expireSec0 kvs :
  (0 < capacity0)%Z → NoDup kvs.*1.*1 →
  ∃ lru, run (sets kvs) (mkLRUCache capacity0 expireSec0 ∅ [] ∅ 0) = Ok lru ∧
    lru_inv lru ∧ capacity lru = capacity0 ∧ expireSec lru = expireSec0 ∧
    items lru = take (Z.to_nat capacity0) (reverse (item_for expireSec0 <$> kvs)).
Proof.
  intros Hcap. induction kvs as [|x kvs IH] using rev_ind; intros Hnd.
  - eexists. split; [done|]. split; [apply lru_inv_new|].
    do 2 (split; [done|]). by destruct (Z.to_nat capacity0).
  - rewrite !fmap_app in Hnd. apply NoDup_app in Hnd as (Hnd & Hsep & _).
    destruct (IH Hnd) as (lru & Hrun & Hinv & Hc & He & Hitems).
    unfold sets. rewrite fmap_app, run_app. fold (sets kvs). rewrite Hrun. simpl.
    destruct (SetKV_total x.1.1 x.1.2 x.2 lru Hinv) as [lru1 Hset]; [lia|].
    rewrite Hset. simpl. exists lru1. split; [done|].
    destruct (SetKV_inv _ _ _ _ _ Hinv Hset) as (Hinv1 & Hc1 & He1 & _).
    split; [done|]. split; [congruence|]. split; [congruence|].
    rewrite (SetKV_items _ _ _ _ _ Hinv Hset).
    rewrite fmap_app.
    change (item_for expireSec0 <$> [x]) with [item_for expireSec0 x].
    rewrite reverse_snoc.
    assert (Hnew : new_item lru x.1.1 x.1.2 x.2 = item_for expireSec0 x).
    { unfold new_item, item_for, ttl. by rewrite He. }
    rewrite Hnew.
    destruct (Z.to_nat capacity0) as [|n] eqn:Hn; [lia|].
    simpl. f_equal.
    rewrite decide_False.
    + rewrite Hitems, Hc. case_decide as Hfull.
      * rewrite length_take in Hfull. apply removelast_take. lia.
      * rewrite length_take in Hfull.
        rewrite !take_ge by lia. done.
    + rewrite Hitems. intros Hin. apply list_elem_of_fmap in Hin as (it & Hkey & Hin).
      assert (Hin' : it ∈ reverse (item_for expireSec0 <$> kvs)).
      { apply elem_of_take in Hin as (i & Hi & _). by eapply list_elem_of_lookup_2. }
      apply elem_of_reverse, list_elem_of_fmap in Hin' as (y & -> & Hy).
      apply (Hsep x.1.1).
      * rewrite Hkey. simpl. apply list_elem_of_fmap. exists y.1. split; [done|].
        apply list_elem_of_fmap. by exists y.
      * simpl. left.
Qed.

(** X4.  Setting distinct keys one after the other into a new cache of
    positive capacity, with no Get in between, returns, and leaves in the
    order the last [capacity] entries set, the latest first, each with the
    value and the deadline its Set wrote. *)
Theorem insertion_order (capacity0 expireSec0 : Z) (kvs : list (Z * Z * Time)) :
  (0 < capacity0)%Z → NoDup kvs.*1.*1 →
  ∃ lru, history capacity0 expireSec0 (sets kvs) = Ok lru ∧
    items lru = take (Z.to_nat capacity0) (reverse (item_for expireSec0 <$> kvs)).
Proof.
  intros Hcap Hnd.
  destruct (sets_items capacity0 expireSec0 kvs Hcap Hnd) as (lru & Hrun & _ & _ & _ & Hitems).
  by exists lru.
Qed.

Lemma insertion_order_witness :
  (0 < 2)%Z ∧ NoDup [(1, 10, 0); (2, 20, 1); (3, 30, 2)]%Z.*1.*1 ∧
  ∃ lru, history 2 100 (sets [(1, 10, 0); (2, 20, 1); (3, 30, 2)]%Z) = Ok lru ∧
    items lru = [mkCacheItem 3 30 100000000002; mkCacheItem 2 20 100000000001].
Proof.
  assert (Hnd : NoDup [(1, 10, 0); (2, 20, 1); (3, 30, 2)]%Z.*1.*1).
  { apply (bool_decide_unpack _). by vm_compute. }
  split; [lia|]. split; [exact Hnd|].
  destruct (insertion_order 2 100 [(1, 10, 0); (2, 20, 1); (3, 30, 2)]%Z) as (lru & Hrun & Hitems);
    [lia|exact Hnd|].
  exists lru. split; [exact Hrun|]. rewrite Hitems. reflexivity.
Defined.

(** X5.  With one distinct key more than the capacity, the first key set is
    the one that is gone: a Get of it answers -1 and changes nothing, and
    every other key is still in the index. *)
Theorem first_key_evicted (capacity0 expireSec0 : Z) (x : Z * Z * Time)
    (rest : list (Z * Z * Time)) (now : Time) :
  (0 < capacity0)%Z → NoDup (x :: rest).*1.*1 → length rest = Z.to_nat capacity0 →
  ∃ lru, history capacity0 expireSec0 (sets (x :: rest)) = Ok lru ∧
    Get x.1.1 now lru = Ok ((-1)%Z, lru) ∧
    ∀ y, y ∈ rest → is_Some (cache lru !! y.1.1).
Proof.
  intros Hcap Hnd Hlen.
  destruct (sets_items capacity0 expireSec0 (x :: rest) Hcap Hnd)
    as (lru & Hrun & Hinv & _ & _ & Hitems).
  exists lru. split; [done|].
  rewrite fmap_cons, reverse_cons in Hitems.
  rewrite take_app_length' in Hitems
    by (by rewrite length_reverse, length_fmap).
  assert (Hkeys : key <$> items lru = reverse rest.*1.*1).
  { rewrite Hitems, fmap_reverse. f_equal. rewrite <- !list_fmap_compose.
    by apply list_fmap_ext. }
  rewrite !fmap_cons in Hnd. apply NoDup_cons in Hnd as [Hx _].
  split.
  - assert (Hnone : cache lru !! x.1.1 = None).
    { destruct (cache lru !! x.1.1) as [e|] eqn:Hk; [|done]. exfalso. apply Hx.
      apply elem_of_reverse. rewrite <- Hkeys. apply items_keys_cache; eauto. }
    unfold Get. by rewrite Hnone.
  - intros y Hy. apply items_keys_cache; [done|]. rewrite Hkeys.
    apply elem_of_reverse, list_elem_of_fmap. exists y.1. split; [done|].
    apply list_elem_of_fmap. by exists y.
Qed.

Lemma first_key_evicted_witness :
  (0 < 2)%Z ∧ NoDup ((1, 10, 0) :: [(2, 20, 1); (3, 30, 2)])%Z.*1.*1 ∧
  length [(2, 20, 1); (3, 30, 2)]%Z = Z.to_nat 2 ∧
  ∃ lru, history 2 100 (sets ((1, 10, 0) :: [(2, 20, 1); (3, 30, 2)])%Z) = Ok lru ∧
    Get 1 3 lru = Ok ((-1)%Z, lru) ∧
    ∀ y, y ∈ [(2, 20, 1); (3, 30, 2)]%Z → is_Some (cache lru !! y.1.1).
Proof.
  assert (Hnd : NoDup ((1, 10, 0) :: [(2, 20, 1); (3, 30, 2)])%Z.*1.*1).
  { apply (bool_decide_unpack _). by vm_compute. }
  split; [lia|]. split; [exact Hnd|]. split; [reflexivity|].
  apply (first_key_evicted 2 100 (1, 10, 0)%Z); [lia|exact Hnd|reflexivity].
Defined.

(** ** Expiry *)

Lemma SetKV_lookup k v now lru lru1 :
  lru_inv lru → SetKV k v now lru = Ok lru1 →
  ∃ e, cache lru1 !! k = Some e ∧
       elems lru1 !! e = Some (new_item lru k v now).
Proof.
  intros Hinv. unfold SetKV, new_item. destruct (cache lru !! k) as [e|] eqn:Hk.
  - destruct (item_of_paired lru k e (inv_paired _ Hinv) Hk) as (it & -> & _ & Hkey).
    simpl. intros [= <-]. exists e. simpl. by rewrite lookup_insert_eq, Hkey.
  - assert (Hsame : ∀ lru', evict_back lru = Ok lru' → ttl lru' = ttl lru ∧ True).
    { unfold evict_back. intros lru'. destruct (Back (lst lru)) as [back|]; [|done].
      destruct (item_of lru back); [|done]. simpl. by intros [= <-]. }
    case_bool_decide.
    + destruct (evict_back lru) as [lru'|] eqn:Hev; [|done].
      destruct (Hsame lru' eq_refl) as [Httl _].
      simpl. intros [= <-]. eexists. simpl. rewrite !lookup_insert_eq.
      by rewrite Httl.
    + simpl. intros [= <-]. eexists. simpl. by rewrite !lookup_insert_eq.
Qed.

Lemma SetKV_Get_late k v t1 t2 t3 lru lru1 :
  lru_inv lru → SetKV k v t1 lru = Ok lru1 → (Add t1 (ttl lru) < t2)%Z →
  ∃ lru2, Get k t2 lru1 = Ok ((-1)%Z, lru2) ∧ cache lru2 !! k = None ∧
          Get k t3 lru2 = Ok ((-1)%Z, lru2).
Proof.
  intros Hinv Hset Hlate.
  destruct (SetKV_lookup k v t1 lru lru1 Hinv Hset) as (e & Hk & Hit).
  eexists.
  assert (Hget : Get k t2 lru1 =
    Ok ((-1)%Z, set_lst (Remove e) (set_cache (delete k) lru1))).
  { unfold Get, item_of. rewrite Hk, Hit. simpl. unfold After.
    by rewrite (proj2 (Z.ltb_lt _ _) Hlate). }
  split; [exact Hget|]. simpl. split; [apply lookup_delete_eq|].
  unfold Get. simpl. by rewrite lookup_delete_eq.
Qed.

Lemma SetKV_Get_live k v t1 t2 lru lru1 :
  lru_inv lru → SetKV k v t1 lru = Ok lru1 → (t2 ≤ Add t1 (ttl lru))%Z →
  ∃ lru2, Get k t2 lru1 = Ok (v, lru2).
Proof.
  intros Hinv Hset Hlive.
  destruct (SetKV_lookup k v t1 lru lru1 Hinv Hset) as (e & Hk & Hit).
  eexists. by apply (Get_live lru1 k t2 e (new_item lru k v t1)).
Qed.

(** X6.  A Set on a cache of positive capacity returns; a Get of the same key
    that comes next, at a clock reading after the deadline the Set wrote,
    answers -1 and takes the key out of the index, and a further Get of
    the key answers -1 and changes nothing. *)
Theorem Set_then_late_Get (lru : LRUCache) (k v : Z) (t1 t2 t3 : Time) :
  lru_inv lru → (0 < capacity lru)%Z →
  (Add t1 (ttl lru) < t2)%Z →
  ∃ lru1 lru2, SetKV k v t1 lru = Ok lru1 ∧
    Get k t2 lru1 = Ok ((-1)%Z, lru2) ∧ cache lru2 !! k = None ∧
    Get k t3 lru2 = Ok ((-1)%Z, lru2).
Proof.
  intros Hinv Hcap Hlate.
  destruct (SetKV_total k v t1 lru Hinv Hcap) as [lru1 Hset].
  destruct (SetKV_Get_late k v t1 t2 t3 lru lru1 Hinv Hset Hlate) as (lru2 & Hget).
  by exists lru1, lru2.
Qed.

Lemma Set_then_late_Get_witness :
  lru_inv full_cache ∧ (0 < capacity full_cache)%Z ∧
  (Add 3 (ttl full_cache) < 100000000004)%Z ∧
  ∃ lru1 lru2, SetKV 3 30 3 full_cache = Ok lru1 ∧
    Get 3 100000000004 lru1 = Ok ((-1)%Z, lru2) ∧ cache lru2 !! 3%Z = None ∧
    Get 3 100000000005 lru2 = Ok ((-1)%Z, lru2).
Proof.
  split; [exact full_cache_inv|]. split; [simpl; lia|]. split; [by vm_compute|].
  apply Set_then_late_Get; [exact full_cache_inv|simpl; lia|by vm_compute].
Defined.

(** ** What a sweep pass does to the order *)

Lemma filter_all (P : Element → Prop) `{!∀ e, Decision (P e)} (l : list Element) :
  (∀ e, e ∈ l → P e) → filter P l = l.
Proof.
  induction l as [|e l IH]; intros Hall; [done|].
  rewrite filter_cons_True by (apply Hall; by left). f_equal.
  apply IH. intros e' He'. apply Hall. by right.
Qed.

Lemma cleanup_visit_lst lru visit lru1 :
  cleanup_visit lru visit = Ok lru1 →
  lst lru1 = lst lru ∨ ∃ e, lst lru1 = Remove e (lst lru).
Proof.
  unfold cleanup_visit. destruct (cache lru !! visit.1) as [e|]; [|intros [= <-]; by left].
  destruct (item_of lru e) as [it|]; [|done]. simpl.
  destruct (After visit.2 (expireAt it)); intros [= <-]; [right; by exists e|by left].
Qed.

(** The list after a pass is the list before it, without the elements
    that left: an element that stays keeps its place among the others. *)
Lemma cleanup_pass_lst visits : ∀ lru lru1,
  cleanup_pass visits lru = Ok lru1 →
  lst lru1 = filter (λ e, e ∈ lst lru1) (lst lru).
Proof.
  induction visits as [|visit rest IH]; intros lru lru1; simpl.
  - intros [= <-]. by rewrite filter_all.
  - destruct (cleanup_visit lru visit) as [lru'|] eqn:Hvisit; [|done]. simpl.
    intros Hrest. pose proof (IH _ _ Hrest) as Hlst.
    destruct (cleanup_visit_lst _ _ _ Hvisit) as [Heq|[e Heq]].
    + by rewrite <- Heq.
    + rewrite Hlst at 1. rewrite Heq. unfold Remove.
      rewrite list_filter_filter. apply list_filter_iff. intros x. split; [tauto|].
      intros Hx. split; [done|]. rewrite Hlst in Hx.
      apply list_elem_of_filter in Hx as [_ Hx]. rewrite Heq in Hx.
      by apply elem_of_Remove in Hx as [_ ?].
Qed.

Lemma cleanup_pass_idle visits : ∀ lru,
  lru_inv lru →
  (∀ k t e it, (k, t) ∈ visits → cache lru !! k = Some e →
     elems lru !! e = Some it → After t (expireAt it) = false) →
  cleanup_pass visits lru = Ok lru.
Proof.
  induction visits as [|[k t] rest IH]; intros lru Hinv Hlive; [done|].
  simpl. assert (Hvisit : cleanup_visit lru (k, t) = Ok lru).
  { unfold cleanup_visit. simpl. destruct (cache lru !! k) as [e|] eqn:Hk; [|done].
    destruct (item_of_paired lru k e (inv_paired _ Hinv) Hk) as (it & -> & Hit & _).
    simpl. rewrite (Hlive k t e it); [done|by left|done|done]. }
  rewrite Hvisit. simpl. apply IH; [done|].
  intros k' t' e' it' Hin. apply Hlive. by right.
Qed.

(** X7.  A pass over every key of the index, once, that reads the clock
    [clock k] when it is at the key [k], returns, writes to no item, and
    leaves in the order exactly the items whose deadline had not passed at
    that reading, in the order they were in. *)
Theorem sweep_items (lru : LRUCache) (visits : list (Z * Time)) (clock : Z → Time) :
  lru_inv lru → range_of lru visits →
  (∀ k t, (k, t) ∈ visits → t = clock k) →
  ∃ lru1, cleanup_pass visits lru = Ok lru1 ∧ elems lru1 = elems lru ∧
    items lru1 =
      filter (λ it, After (clock (key it)) (expireAt it) = false) (items lru).
Proof.
  intros Hinv [Hnd Hcover] Hclock.
  destruct (cleanup_pass_effect visits lru Hinv Hnd)
    as (lru1 & Hpass & Hel & _ & _ & _ & Hseen).
  exists lru1. split; [done|]. split; [done|].
  unfold items. rewrite Hel, (cleanup_pass_lst _ _ _ Hpass).
  apply omap_filter_comm. intros e it He Hit.
  destruct (inv_indexed _ Hinv e He) as (it' & Hit' & Hc).
  rewrite Hit in Hit'. injection Hit' as <-.
  assert (Hin : key it ∈ visits.*1) by (apply Hcover; eauto).
  apply list_elem_of_fmap in Hin as ([k t] & Hk & Hin). simpl in Hk. subst k.
  specialize (Hseen (key it) t e it Hin Hc Hit).
  rewrite <- (Hclock _ _ Hin).
  destruct (After t (expireAt it)).
  - split; [intros ?; by destruct Hseen|done].
  - split; [done|intros _; by destruct Hseen].
Qed.

Lemma sweep_items_witness :
  lru_inv full_cache ∧
  range_of full_cache [(1, 100000000001); (2, 100000000001)]%Z ∧
  (∀ k t, (k, t) ∈ [(1, 100000000001); (2, 100000000001)]%Z →
     t = (λ _, 100000000001%Z) k) ∧
  ∃ lru1,
    cleanup_pass [(1, 100000000001); (2, 100000000001)]%Z full_cache = Ok lru1 ∧
    items lru1 = [mkCacheItem 2 20 100000000001].
Proof.
  assert (Hclock : ∀ k t, (k, t) ∈ [(1, 100000000001); (2, 100000000001)]%Z →
     t = (λ _, 100000000001%Z) k).
  { intros k t Hin. rewrite !elem_of_cons, elem_of_nil in Hin.
    destruct Hin as [[= _ ->]|[[= _ ->]|[]]]; reflexivity. }
  split; [exact full_cache_inv|]. split; [exact full_cache_range|].
  split; [exact Hclock|].
  destruct (sweep_items full_cache _ (λ _, 100000000001%Z)
              full_cache_inv full_cache_range Hclock) as (lru1 & Hpass & _ & Hitems).
  exists lru1. split; [exact Hpass|]. rewrite Hitems. reflexivity.
Defined.

(** X8.  A pass that finds no deadline passed, whatever keys it visits and in
    whatever order, returns the very state it was given. *)
Theorem sweep_without_expired (lru : LRUCache) (visits : list (Z * Time)) :
  lru_inv lru →
  (∀ k t it, (k, t) ∈ visits → it ∈ items lru → key it = k →
     After t (expireAt it) = false) →
  cleanup_pass visits lru = Ok lru.
Proof.
  intros Hinv Hlive. apply cleanup_pass_idle; [done|].
  intros k t e it Hin Hk Hit.
  destruct (items_of_cache lru k e it Hinv Hk Hit) as [Hitem Hkey].
  by apply (Hlive k t).
Qed.

Lemma sweep_without_expired_witness :
  lru_inv full_cache ∧
  (∀ k t it, (k, t) ∈ [(2, 7); (1, 7); (5, 9)]%Z → it ∈ items full_cache →
     key it = k → After t (expireAt it) = false) ∧
  cleanup_pass [(2, 7); (1, 7); (5, 9)]%Z full_cache = Ok full_cache.
Proof.
  assert (Hlive : ∀ k t it, (k, t) ∈ [(2, 7); (1, 7); (5, 9)]%Z →
     it ∈ items full_cache → key it = k → After t (expireAt it) = false).
  { intros k t it Hin Hit _.
    change (items full_cache)
      with [mkCacheItem 2 20 100000000001; mkCacheItem 1 10 100000000000] in Hit.
    rewrite !elem_of_cons, elem_of_nil in Hin.
    rewrite !elem_of_cons, elem_of_nil in Hit.
    destruct Hit as [->|[->|[]]];
      destruct Hin as [[= _ ->]|[[= _ ->]|[[= _ ->]|[]]]]; reflexivity. }
  split; [exact full_cache_inv|]. split; [exact Hlive|].
  apply sweep_without_expired; [exact full_cache_inv|exact Hlive].
Defined.

(** X9.  After a pass over every key, a second pass that reads the same clock
    at each key removes nothing: it returns the state the first one
    left. *)
Theorem sweep_twice (lru : LRUCache) (visits visits2 : list (Z * Time)) (clock : Z → Time) :
  lru_inv lru → range_of lru visits →
  (∀ k t, (k, t) ∈ visits → t = clock k) →
  (∀ k t, (k, t) ∈ visits2 → t = clock k) →
  ∃ lru1, cleanup_pass visits lru = Ok lru1 ∧ cleanup_pass visits2 lru1 = Ok lru1.
Proof.
  intros Hinv [Hnd Hcover] Hclock Hclock2.
  destruct (cleanup_pass_effect visits lru Hinv Hnd)
    as (lru1 & Hpass & Hel & Hmono & _ & _ & Hseen).
  destruct (cleanup_pass_spec visits lru Hinv) as (lru1' & Hpass' & Hinv1 & _).
  rewrite Hpass in Hpass'. injection Hpass' as <-.
  exists lru1. split; [done|]. apply cleanup_pass_idle; [done|].
  intros k t e it Hin Hk Hit.
  apply Hmono in Hk as Hk0. rewrite Hel in Hit.
  assert (Hv : k ∈ visits.*1) by (apply Hcover; eauto).
  apply list_elem_of_fmap in Hv as ([k' t'] & Hk' & Hv). simpl in Hk'. subst k'.
  specialize (Hseen k t' e it Hv Hk0 Hit).
  rewrite (Hclock2 _ _ Hin), <- (Hclock _ _ Hv).
  destruct (After t' (expireAt it)); [|done].
  destruct Hseen as [Hgone _]. congruence.
Qed.

Lemma sweep_twice_witness :
  lru_inv full_cache ∧
  range_of full_cache [(1, 100000000001); (2, 100000000001)]%Z ∧
  ∃ lru1,
    cleanup_pass [(1, 100000000001); (2, 100000000001)]%Z full_cache = Ok lru1 ∧
    cleanup_pass [(2, 100000000001)]%Z lru1 = Ok lru1.
Proof.
  split; [exact full_cache_inv|]. split; [exact full_cache_range|].
  apply (sweep_twice full_cache _ _ (λ _, 100000000001%Z));
    [exact full_cache_inv|exact full_cache_range| |];
    intros k t Hin; rewrite ?elem_of_cons, elem_of_nil in Hin;
    repeat (destruct Hin as [[= _ ->]|Hin]; [reflexivity|]); destruct Hin.
Defined.

(** ** The deadline a Set writes *)

Lemma int64_small z :
  (- 9223372036854775808 ≤ z < 9223372036854775808)%Z → int64 z = z.
Proof.
  intros Hz. unfold int64.
  change (2 ^ 63)%Z with 9223372036854775808%Z.
  change (2 ^ 64)%Z with 18446744073709551616%Z.
  rewrite Z.mod_small by lia. lia.
Qed.

Lemma int64_wrap z :
  (9223372036854775808 ≤ z < 27670116110564327424)%Z →
  int64 z = (z - 18446744073709551616)%Z.
Proof.
  intros Hz. unfold int64.
  change (2 ^ 63)%Z with 9223372036854775808%Z.
  change (2 ^ 64)%Z with 18446744073709551616%Z.
  replace (z + 9223372036854775808)%Z
    with (z + 9223372036854775808 - 18446744073709551616
          + 1 * 18446744073709551616)%Z by lia.
  rewrite Z_mod_plus_full, Z.mod_small by lia. lia.
Qed.

(** X10.  For a setting of at most 9223372036 seconds in absolute value the
    64-bit product does not wrap: a Set at [now] returns and puts at the
    front of the order the item with the key, the value and the deadline
    [now + expireSec * 10^9] nanoseconds. *)
Theorem Set_deadline (lru : LRUCache) (k v : Z) (now : Time) :
  lru_inv lru → (0 < capacity lru)%Z →
  (- 9223372036 ≤ expireSec lru ≤ 9223372036)%Z →
  ∃ lru1, SetKV k v now lru = Ok lru1 ∧
    head (items lru1) =
      Some (mkCacheItem k v (now + expireSec lru * 1000000000)%Z).
Proof.
  intros Hinv Hcap Hexp.
  destruct (SetKV_total k v now lru Hinv Hcap) as [lru1 Hset].
  exists lru1. split; [done|].
  rewrite (SetKV_items _ _ _ _ _ Hinv Hset). simpl.
  unfold new_item, Add, ttl, Second. by rewrite int64_small by lia.
Qed.

Lemma Set_deadline_witness :
  lru_inv full_cache ∧ (0 < capacity full_cache)%Z ∧
  (- 9223372036 ≤ expireSec full_cache ≤ 9223372036)%Z ∧
  ∃ lru1, SetKV 3 30 7 full_cache = Ok lru1 ∧
    head (items lru1) =
      Some (mkCacheItem 3 30 (7 + expireSec full_cache * 1000000000)%Z).
Proof.
  split; [exact full_cache_inv|]. split; [simpl; lia|]. split; [simpl; lia|].
  apply Set_deadline; [exact full_cache_inv|simpl; lia|simpl; lia].
Defined.

(** X11.  For a setting from 9223372037 to 18446744073 seconds the product
    wraps to a negative duration: the deadline a Set writes lies before
    the Set itself, and a Get of the key at the instant of the Set or
    later answers -1. *)
Theorem ttl_wraps_negative (lru : LRUCache) (k v : Z) (t1 t2 : Time) :
  lru_inv lru → (0 < capacity lru)%Z →
  (9223372037 ≤ expireSec lru ≤ 18446744073)%Z → (t1 ≤ t2)%Z →
  (ttl lru < 0)%Z ∧
  ∃ lru1 lru2, SetKV k v t1 lru = Ok lru1 ∧ Get k t2 lru1 = Ok ((-1)%Z, lru2).
Proof.
  intros Hinv Hcap Hexp Htime.
  assert (Hneg : (ttl lru < 0)%Z).
  { unfold ttl, Second. rewrite int64_wrap by lia. lia. }
  split; [done|].
  destruct (SetKV_total k v t1 lru Hinv Hcap) as [lru1 Hset].
  destruct (SetKV_Get_late k v t1 t2 t2 lru lru1 Hinv Hset) as (lru2 & Hget & _).
  { unfold Add. lia. }
  by exists lru1, lru2.
Qed.

Lemma ttl_wraps_negative_witness :
  lru_inv (empty_cache 2 9223372037) ∧ (0 < capacity (empty_cache 2 9223372037))%Z ∧
  (9223372037 ≤ expireSec (empty_cache 2 9223372037) ≤ 18446744073)%Z ∧ (5 ≤ 5)%Z ∧
  (ttl (empty_cache 2 9223372037) < 0)%Z ∧
  ∃ lru1 lru2, SetKV 1 10 5 (empty_cache 2 9223372037) = Ok lru1 ∧
               Get 1 5 lru1 = Ok ((-1)%Z, lru2).
Proof.
  split; [apply lru_inv_new|]. split; [simpl; lia|]. split; [simpl; lia|].
  split; [lia|].
  apply ttl_wraps_negative; [apply lru_inv_new|simpl; lia|simpl; lia|lia].
Defined.

(** ** A cache without capacity *)

Lemma run_empty_cache capacity0 expireSec0 ops :
  (capacity0 ≤ 0)%Z →
  match run ops (empty_cache capacity0 expireSec0) with
  | Ok lru =>
      lru = empty_cache capacity0 expireSec0 ∧ ∀ op, op ∈ ops → is_OpSet op = false
  | Panic => ∃ op, op ∈ ops ∧ is_OpSet op = true
  end.
Proof.
  intros Hcap. induction ops as [|op ops IH].
  - simpl. split; [done|]. intros op Hop. by apply elem_of_nil in Hop.
  - assert (Hstep : step (empty_cache capacity0 expireSec0) op =
      if is_OpSet op then Panic else Ok (empty_cache capacity0 expireSec0)).
    { destruct op as [k now|k v now|visits]; simpl.
      - reflexivity.
      - unfold SetKV. simpl. rewrite lookup_empty.
        rewrite bool_decide_eq_true_2 by (rewrite map_size_empty; simpl; lia).
        reflexivity.
      - apply cleanup_pass_idle; [apply lru_inv_new|].
        intros k t e it _ Hk. simpl in Hk. by rewrite lookup_empty in Hk. }
    simpl. rewrite Hstep. destruct (is_OpSet op) eqn:Hop; simpl.
    + exists op. split; [by left|done].
    + destruct (run ops (empty_cache capacity0 expireSec0)) as [lru|].
      * destruct IH as [-> Hall]. split; [done|].
        intros op' Hin. apply elem_of_cons in Hin as [->|Hin]; [done|by apply Hall].
      * destruct IH as (op' & Hin & Hset). exists op'. split; [by right|done].
Qed.

(** X12.  A cache built with a capacity of zero or less can hold nothing: the
    first Set of a history panics, and a history with no Set ends in the
    state it started in, with an empty index and an empty order. *)
Theorem no_capacity_no_Set (capacity0 expireSec0 : Z) (ops : list Op) :
  (capacity0 ≤ 0)%Z →
  match history capacity0 expireSec0 ops with
  | Ok lru =>
      cache lru = ∅ ∧ lst lru = [] ∧ ∀ op, op ∈ ops → is_OpSet op = false
  | Panic => ∃ op, op ∈ ops ∧ is_OpSet op = true
  end.
Proof.
  intros Hcap. unfold history, NewLRUCache. simpl.
  pose proof (run_empty_cache capacity0 expireSec0 ops Hcap) as Hrun.
  unfold empty_cache in Hrun.
  destruct (run ops (mkLRUCache capacity0 expireSec0 ∅ [] ∅ 0)) as [lru|]; [|done].
  destruct Hrun as [-> Hall]. done.
Qed.

Lemma no_capacity_no_Set_witness :
  (0 ≤ 0)%Z ∧ history 0 100 [OpGet 1 0; OpSet 1 10 1] = Panic.
Proof.
  split; [lia|].
  pose proof (no_capacity_no_Set 0 100 [OpGet 1 0; OpSet 1 10 1]) as Hrun.
  destruct (history 0 100 [OpGet 1 0; OpSet 1 10 1]) as [lru|]; [|reflexivity].
  destruct Hrun as (_ & _ & Hall); [lia|].
  specialize (Hall (OpSet 1 10 1)). simpl in Hall.
  discriminate Hall. right. left.
Defined.

(** ** The handlers *)

Lemma Decode_accepted parseTime body :
  Decode parseTime body zero_item =
  if accepted_body body then Some zero_item else None.
Proof.
  destruct body as [[| | | | |members]|]; try reflexivity.
  simpl. rewrite settable_CacheItem. apply decode_members_no_field.
Qed.

(** X13.  On a cache of positive capacity SetHandler returns.  A request that
    is not a POST is answered 405 and one whose body is neither a JSON
    object nor [null] 400, both without touching the cache.  Every other
    request is answered 201 after the one call Set(0, 0), whatever the
    body says. *)
Theorem SetHandler_outcomes (parseTime : string → option Time) (now : Time)
    (r : Request) (lru : LRUCache) :
  lru_inv lru → (0 < capacity lru)%Z →
  ∃ status lru1, SetHandler parseTime now r lru = Ok (status, lru1) ∧
    if decide (Method r = MethodPost) then
      if accepted_body (Body r)
      then status = StatusCreated ∧ SetKV 0 0 now lru = Ok lru1
      else status = StatusBadRequest ∧ lru1 = lru
    else status = StatusMethodNotAllowed ∧ lru1 = lru.
Proof.
  intros Hinv Hcap. unfold SetHandler. rewrite Decode_accepted.
  destruct (decide (Method r = MethodPost)) as [Hm|Hm].
  - rewrite decide_False by (intros Hne; by apply Hne).
    destruct (accepted_body (Body r)).
    + simpl. destruct (SetKV_total 0 0 now lru Hinv Hcap) as [lru1 Hset].
      rewrite Hset. simpl. by exists StatusCreated, lru1.
    + by exists StatusBadRequest, lru.
  - rewrite decide_True by done. by exists StatusMethodNotAllowed, lru.
Qed.

Lemma SetHandler_outcomes_witness :
  lru_inv full_cache ∧ (0 < capacity full_cache)%Z ∧
  ∃ status lru1,
    SetHandler (λ _, None) 9 (mkRequest "POST" (Some (JArray []))) full_cache =
      Ok (status, lru1) ∧
    status = StatusBadRequest ∧ lru1 = full_cache.
Proof.
  split; [exact full_cache_inv|]. split; [simpl; lia|].
  destruct (SetHandler_outcomes (λ _, None) 9 (mkRequest "POST" (Some (JArray [])))
              full_cache full_cache_inv) as (status & lru1 & Hrun & Hout);
    [simpl; lia|].
  exists status, lru1. split; [exact Hrun|]. exact Hout.
Defined.

Lemma digits_nonneg s : ∀ acc n, (0 ≤ acc)%Z → digits s acc = Some n → (0 ≤ n)%Z.
Proof.
  induction s as [|c s IH]; intros acc n Hacc; simpl.
  - by intros [= <-].
  - unfold digit_of.
    destruct ((48 <=? Ascii.nat_of_ascii c) && (Ascii.nat_of_ascii c <=? 57)); [|done].
    simpl. apply IH. lia.
Qed.

Lemma Atoi_fits s n : Atoi s = Some n → fits_int n = true ∧ s ≠ EmptyString.
Proof.
  assert (Hrange : ∀ z, in_range z = Some n → fits_int n = true).
  { unfold in_range. intros z. destruct (fits_int z) eqn:Hz; [|done]. by intros [= <-]. }
  destruct s as [|c rest]; [done|]. simpl. intros Hs. split; [|done].
  destruct (Ascii.eqb c minus_sign).
  - destruct rest; [done|]. destruct (digits _ 0) as [m|]; [|done]. by eapply Hrange.
  - destruct (Ascii.eqb c plus_sign).
    + destruct rest; [done|]. destruct (digits _ 0) as [m|]; [|done]. by eapply Hrange.
    + destruct (digit_of c ≫= _) as [m|]; [|done]. by eapply Hrange.
Qed.

(** X14.  On a state that satisfies the invariant, and a request whose [key]
    parameter, if present, has a value, GetHandler returns.  A request
    that is not a GET is answered 405; a missing parameter, an empty first
    value or one that is not a decimal integer of the [int] range is
    answered 400; none of these touches the cache.  Otherwise the answer is
    200 with the member [value] holding what Get returned for that
    integer, and the cache is as Get left it. *)
Theorem GetHandler_outcomes (now : Time) (r : QueryRequest) (lru : LRUCache) :
  lru_inv lru → QKey r ≠ Some [] →
  ∃ resp lru1, GetHandler now r lru = Ok (resp, lru1) ∧
    if decide (QMethod r = MethodGet) then
      match (QKey r ≫= head) ≫= Atoi with
      | Some k => fits_int k = true ∧
                  ∃ v, Get k now lru = Ok (v, lru1) ∧ resp = value_response v
      | None => resp = mkResponse StatusBadRequest None ∧ lru1 = lru
      end
    else resp = mkResponse StatusMethodNotAllowed None ∧ lru1 = lru.
Proof.
  intros Hinv Hkeys. unfold GetHandler.
  destruct (decide (QMethod r = MethodGet)) as [Hm|Hm].
  - rewrite decide_False by (intros Hne; by apply Hne).
    destruct (QKey r) as [[|first others]|]; [done| |by eexists _, _].
    cbn [mbind option_bind head]. destruct (Atoi first) as [k|] eqn:Hk.
    + destruct (Atoi_fits _ _ Hk) as [Hfit Hne].
      destruct first as [|c first]; [done|].
      change (String.length (String c first) <? 1)%nat with false. cbv iota.
      destruct (Get_spec k now lru Hinv) as ([v lru1] & Hget & _).
      rewrite Hget. eexists _, _. split; [done|]. split; [done|]. by exists v.
    + destruct (String.length first <? 1)%nat; by eexists _, _.
  - rewrite decide_True by done. by eexists _, _.
Qed.

Lemma GetHandler_outcomes_witness :
  lru_inv full_cache ∧ QKey (mkQueryRequest "GET" (Some ["2"; "x"])) ≠ Some [] ∧
  ∃ resp lru1,
    GetHandler 5 (mkQueryRequest "GET" (Some ["2"; "x"])) full_cache = Ok (resp, lru1) ∧
    ∃ v, Get 2 5 full_cache = Ok (v, lru1) ∧ resp = value_response v.
Proof.
  split; [exact full_cache_inv|]. split; [discriminate|].
  destruct (GetHandler_outcomes 5 (mkQueryRequest "GET" (Some ["2"; "x"])) full_cache
              full_cache_inv) as (resp & lru1 & Hrun & Hout); [discriminate|].
  exists resp, lru1. split; [exact Hrun|]. exact (proj2 Hout).
Defined.



(** X16.  The two handlers together: after a POST with any JSON object or
    [null] as body, a GET for the key 0 that comes next and not after the
    deadline answers 200 with the value 0. *)
Theorem POST_then_GET_zero (parseTime : string → option Time) (t1 t2 : Time)
    (r : Request) (lru : LRUCache) :
  lru_inv lru → (0 < capacity lru)%Z →
  Method r = MethodPost → accepted_body (Body r) = true →
  (t2 ≤ Add t1 (ttl lru))%Z →
  ∃ lru1 lru2,
    SetHandler parseTime t1 r lru = Ok (StatusCreated, lru1) ∧
    GetHandler t2 (mkQueryRequest "GET" (Some ["0"])) lru1 =
      Ok (value_response 0, lru2).
Proof.
  intros Hinv Hcap Hm Hbody Hlive.
  destruct (SetKV_total 0 0 t1 lru Hinv Hcap) as [lru1 Hset].
  destruct (SetKV_Get_live 0 0 t1 t2 lru lru1 Hinv Hset Hlive) as [lru2 Hget].
  exists lru1, lru2. split.
  - unfold SetHandler. rewrite Decode_accepted, Hbody.
    rewrite decide_False by (intros Hne; by apply Hne). simpl. by rewrite Hset.
  - unfold GetHandler. cbn [QMethod QKey].
    rewrite decide_False by (intros Hne; by apply Hne).
    change (String.length "0" <? 1)%nat with false.
    change (Atoi "0") with (Some 0%Z). cbv iota. by rewrite Hget.
Qed.

Lemma POST_then_GET_zero_witness :
  lru_inv full_cache ∧ (0 < capacity full_cache)%Z ∧
  Method post_5_7 = MethodPost ∧ accepted_body (Body post_5_7) = true ∧
  (4 ≤ Add 3 (ttl full_cache))%Z ∧
  ∃ lru1 lru2,
    SetHandler (λ _, None) 3 post_5_7 full_cache = Ok (StatusCreated, lru1) ∧
    GetHandler 4 (mkQueryRequest "GET" (Some ["0"])) lru1 =
      Ok (value_response 0, lru2).
Proof.
  split; [exact full_cache_inv|]. split; [simpl; lia|].
  split; [reflexivity|]. split; [reflexivity|]. split; [by vm_compute|].
  apply POST_then_GET_zero;
    [exact full_cache_inv|simpl; lia|reflexivity|reflexivity|by vm_compute].
Defined.

(** ** main *)

(** X17.  The server's cache has room for 1024 entries and keeps an entry for
    50000 seconds: after every history, a Set returns, the order holds at
    most 1024 items, and a Get of the key up to 50000 * 10^9 nanoseconds
    after the Set answers the value set. *)
Theorem main_cache_keeps_50000s (ops : list Op) (k v : Z) (t1 t2 : Time) :
  (t2 ≤ t1 + 50000 * 1000000000)%Z →
  ∃ lru lru1 lru2,
    (lru0 ← main_cache; run ops lru0) = Ok lru ∧
    SetKV k v t1 lru = Ok lru1 ∧ (length (items lru1) ≤ 1024)%nat ∧
    Get k t2 lru1 = Ok (v, lru2).
Proof.
  intros Hlive. fold (history 1024 50000 ops).
  destruct (history_total 1024 50000 ops) as [lru Hrun]; [lia|].
  destruct (history_inv _ _ _ _ Hrun) as (Hinv & Hc & Hb).
  assert (Hexp : expireSec lru = 50000%Z).
  { unfold history, NewLRUCache in Hrun. simpl in Hrun.
    by destruct (run_inv _ _ _ (lru_inv_new 1024 50000) Hrun) as (_ & _ & -> & _). }
  destruct (SetKV_total k v t1 lru Hinv) as [lru1 Hset]; [lia|].
  destruct (SetKV_inv _ _ _ _ _ Hinv Hset) as (Hinv1 & Hc1 & _ & Hb1).
  destruct (SetKV_Get_live k v t1 t2 lru lru1 Hinv Hset) as [lru2 Hget].
  { unfold Add, ttl, Second. rewrite Hexp. rewrite int64_small by lia. lia. }
  exists lru, lru1, lru2. split; [done|]. split; [done|]. split; [|done].
  rewrite (items_length _ Hinv1), <- (inv_size _ Hinv1).
  specialize (Hb1 (Hb ltac:(lia))). unfold bounded in Hb1. lia.
Qed.

Lemma main_cache_keeps_50000s_witness :
  (6000000000 ≤ 0 + 50000 * 1000000000)%Z ∧
  ∃ lru lru1 lru2,
    (lru0 ← main_cache; run [OpSet 1 10 0] lru0) = Ok lru ∧
    SetKV 2 20 0 lru = Ok lru1 ∧ (length (items lru1) ≤ 1024)%nat ∧
    Get 2 6000000000 lru1 = Ok (20%Z, lru2).
Proof. split; [lia|]. apply main_cache_keeps_50000s. lia. Defined.
